(** * RC5-32/12/16 (dgryski/go-rc5): a shallow embedding and its properties

    The development follows the Go sources: [src/rc5.go] (module [Rc5]) and
    its refactoring onto [math/bits] and [encoding/binary]
    ([src/unnamed/part_000], module [Part000]).

    - a [uint32] is a [Z] in [0, 2^32); every operation writes its
      wrap-around out ([add32], [sub32], [shl32], [shr32]);
    - a [byte] is [Byte.byte];
    - a [[]byte] is a view (offset, length, spare capacity) into one shared
      byte store, so that two slices may overlap or coincide;
    - code that indexes or writes a slice runs in a small state-and-panic
      monad over that store. *)

From Stdlib Require Import ZArith List Lia Bool Arith.
From Stdlib Require Import Strings.Byte.
From Stdlib Require String DecimalString DecimalZ.
Import ListNotations.

Local Open Scope Z_scope.

(** ** 32-bit unsigned arithmetic *)

Definition wrap32 (z : Z) : Z := z mod 2 ^ 32.

Definition add32 (a b : Z) : Z := wrap32 (a + b).
Definition sub32 (a b : Z) : Z := wrap32 (a - b).

(** Go shifts: a count of 32 or more clears a [uint32]. *)
Definition shl32 (k n : Z) : Z :=
  if 32 <=? n then 0 else wrap32 (Z.shiftl k n).
Definition shr32 (k n : Z) : Z :=
  if 32 <=? n then 0 else Z.shiftr k n.

Definition is_uint32 (z : Z) : Prop := 0 <= z < 2 ^ 32.

(** ** Bytes *)

(** [uint32(b)] for a byte [b]. *)
Definition uint32_of_byte (b : byte) : Z := Z.of_N (Byte.to_N b).

(** [byte(v)]: the low eight bits. *)
Definition byte_of_uint32 (v : Z) : byte :=
  match Byte.of_N (Z.to_N (v mod 256)) with
  | Some b => b
  | None => x00
  end.

(** ** The byte store and slices *)

Definition mem := nat -> byte.

Definition upd (m : mem) (a : nat) (b : byte) : mem :=
  fun x => if Nat.eqb x a then b else m x.

(** A slice header.  Go keeps (pointer, len, cap); the capacity is kept here
    as the room behind the length, [cap = len + spare], so that
    [len <= cap] holds for every header. *)
Record slice := mkSlice { off : nat; len : nat; spare : nat }.

Definition cap (b : slice) : nat := (len b + spare b)%nat.

(** The [n] bytes stored from address [a] on. *)
Definition bytes_at (m : mem) (a : nat) (n : nat) : list byte :=
  map (fun i => m (a + i)%nat) (seq 0 n).

Definition contents (m : mem) (b : slice) : list byte :=
  bytes_at m (off b) (len b).

(** ** Computations over the store that may panic *)

Definition M (A : Type) : Type := mem -> option A * mem.

Definition ret {A} (x : A) : M A := fun m => (Some x, m).
Definition panic {A} : M A := fun m => (None, m).
Definition bind {A B} (c : M A) (f : A -> M B) : M B :=
  fun m =>
    match c m with
    | (Some x, m') => f x m'
    | (None, m') => (None, m')
    end.

Declare Scope go_scope.
Delimit Scope go_scope with go.
Notation "x <- c ;; f" := (bind c (fun x => f))
  (at level 61, c at next level, right associativity) : go_scope.
Notation "c ;;; f" := (bind c (fun _ => f))
  (at level 61, right associativity) : go_scope.
Local Open Scope go_scope.

(** [b[i]] as a value: panics when [i] is not below [len b]. *)
Definition index (b : slice) (i : nat) : M byte :=
  fun m => if (i <? len b)%nat then (Some (m (off b + i)%nat), m) else (None, m).

(** [b[i] = v]. *)
Definition store (b : slice) (i : nat) (v : byte) : M unit :=
  fun m =>
    if (i <? len b)%nat then (Some tt, upd m (off b + i)%nat v) else (None, m).

(** [b[lo:]]: [lo] is checked against the length. *)
Definition slice_from (b : slice) (lo : nat) : M slice :=
  if (lo <=? len b)%nat
  then ret (mkSlice (off b + lo) (len b - lo) (spare b))
  else panic.

(** [b[:hi]]: [hi] is checked against the capacity. *)
Definition slice_to (b : slice) (hi : nat) : M slice :=
  if (hi <=? cap b)%nat
  then ret (mkSlice (off b) hi (cap b - hi))
  else panic.

(** [b[lo:hi]]. *)
Definition slice_range (b : slice) (lo hi : nat) : M slice :=
  if ((lo <=? hi) && (hi <=? cap b))%nat
  then ret (mkSlice (off b + lo) (hi - lo) (cap b - hi))
  else panic.

(** ** Fixed-size arrays of words

    [[n]uint32] is a list of length [n]; the indices the cipher uses are
    reduced modulo the array length or run over constant ranges, so they stay
    in range. *)

Fixpoint update (l : list Z) (i : nat) (v : Z) : list Z :=
  match l, i with
  | [], _ => []
  | _ :: t, O => v :: t
  | h :: t, S i' => h :: update t i' v
  end.

(** [copy(dst, src)] copies [min (len dst) (len src)] elements. *)
Definition copy (dst src : list Z) : list Z :=
  firstn (length dst) src ++ skipn (length src) dst.

(** ** Constants and types shared by both source files *)

Definition rounds : nat := 12.
Definition roundKeys : nat := 2 * (rounds + 1).
Definition keyWords : nat := 4.

Record rc5cipher := mkCipher { rk : list Z }.

(** [type KeySizeError int] *)
Inductive error := KeySizeError (l : Z).

Definition BlockSize (c : rc5cipher) : Z := 8.

Definition skeytable : list Z :=
  [ 0xb7e15163; 0x5618cb1c; 0xf45044d5; 0x9287be8e; 0x30bf3847; 0xcef6b200;
    0x6d2e2bb9; 0x0b65a572; 0xa99d1f2b; 0x47d498e4; 0xe60c129d; 0x84438c56;
    0x227b060f; 0xc0b27fc8; 0x5ee9f981; 0xfd21733a; 0x9b58ecf3; 0x399066ac;
    0xd7c7e065; 0x75ff5a1e; 0x1436d3d7; 0xb26e4d90; 0x50a5c749; 0xeedd4102;
    0x8d14babb; 0x2b4c3474 ].

(** The word [uint32(b0) | uint32(b1)<<8 | uint32(b2)<<16 | uint32(b3)<<24]. *)
Definition le_word (b0 b1 b2 b3 : byte) : Z :=
  Z.lor (Z.lor (Z.lor (uint32_of_byte b0)
                      (shl32 (uint32_of_byte b1) 8))
               (shl32 (uint32_of_byte b2) 16))
        (shl32 (uint32_of_byte b3) 24).

(** ** src/rc5.go *)
Module Rc5.

Definition rotl32 (k rot : Z) : Z :=
  Z.lor (shl32 k rot) (shr32 k (sub32 32 rot)).

Definition rotr32 (k rot : Z) : Z :=
  Z.lor (shr32 k rot) (shl32 k (sub32 32 rot)).

Definition getUint32 (b : slice) : M Z :=
  b0 <- index b 0 ;;
  b1 <- index b 1 ;;
  b2 <- index b 2 ;;
  b3 <- index b 3 ;;
  ret (le_word b0 b1 b2 b3).

Definition putUint32 (b : slice) (v : Z) : M unit :=
  store b 0 (byte_of_uint32 v) ;;;
  store b 1 (byte_of_uint32 (shr32 v 8)) ;;;
  store b 2 (byte_of_uint32 (shr32 v 16)) ;;;
  store b 3 (byte_of_uint32 (shr32 v 24)).

(** [for i := 0; i < keyWords; i++ { L[i] = getUint32(key); key = key[4:] }],
    with [n] iterations left. *)
Fixpoint loadKey (n i : nat) (L : list Z) (key : slice) : M (list Z) :=
  match n with
  | O => ret L
  | S n' =>
      w <- getUint32 key ;;
      key' <- slice_from key 4 ;;
      loadKey n' (S i) (update L i w) key'
  end.

(** The mixing loop of [New], with [n] iterations left. *)
Fixpoint mix (n : nat) (rks L : list Z) (A B : Z) (i j : nat) : list Z :=
  match n with
  | O => rks
  | S n' =>
      let rks := update rks i (rotl32 (add32 (nth i rks 0) (add32 A B)) 3) in
      let A := nth i rks 0 in
      let L := update L j (rotl32 (add32 (nth j L 0) (add32 A B))
                                  (Z.land (add32 A B) 31)) in
      let B := nth j L 0 in
      mix n' rks L A B ((i + 1) mod roundKeys)%nat ((j + 1) mod keyWords)%nat
  end.

Definition New (key : slice) : M (error + rc5cipher) :=
  let l := len key in
  if negb (l =? 16)%nat then ret (inl (KeySizeError (Z.of_nat l)))
  else
    L <- loadKey keyWords 0 (repeat 0 keyWords) key ;;
    let rks := copy (repeat 0 roundKeys) skeytable in
    ret (inr (mkCipher (mix (3 * roundKeys) rks L 0 0 0 0))).

(** The round loop of [Encrypt], with [n] rounds left. *)
Fixpoint encRounds (n : nat) (rks : list Z) (A B : Z) (kidx : nat) : Z * Z :=
  match n with
  | O => (A, B)
  | S n' =>
      let A := add32 (rotl32 (Z.lxor A B) (Z.land B 31)) (nth kidx rks 0) in
      let B := add32 (rotl32 (Z.lxor B A) (Z.land A 31)) (nth (kidx + 1) rks 0) in
      encRounds n' rks A B (kidx + 2)
  end.

Definition Encrypt (c : rc5cipher) (dst src : slice) : M unit :=
  a <- getUint32 src ;;
  let A := add32 a (nth 0 (rk c) 0) in
  src4 <- slice_from src 4 ;;
  b <- getUint32 src4 ;;
  let B := add32 b (nth 1 (rk c) 0) in
  let '(A, B) := encRounds rounds (rk c) A B 2 in
  putUint32 dst A ;;;
  dst4 <- slice_from dst 4 ;;
  putUint32 dst4 B.

(** The round loop of [Decrypt], with [n] rounds left. *)
Fixpoint decRounds (n : nat) (rks : list Z) (A B : Z) (kidx : nat) : Z * Z :=
  match n with
  | O => (A, B)
  | S n' =>
      let B := Z.lxor (rotr32 (sub32 B (nth (kidx + 1) rks 0)) (Z.land A 31)) A in
      let A := Z.lxor (rotr32 (sub32 A (nth kidx rks 0)) (Z.land B 31)) B in
      decRounds n' rks A B (kidx - 2)
  end.

Definition Decrypt (c : rc5cipher) (dst src : slice) : M unit :=
  A <- getUint32 src ;;
  src4 <- slice_from src 4 ;;
  B <- getUint32 src4 ;;
  let '(A, B) := decRounds rounds (rk c) A B (2 * rounds) in
  dst4 <- slice_from dst 4 ;;
  putUint32 dst4 (sub32 B (nth 1 (rk c) 0)) ;;;
  putUint32 dst (sub32 A (nth 0 (rk c) 0)).

End Rc5.

(** ** Go's [int] and the library calls of src/unnamed/part_000

    [int] is 32 or 64 bits wide depending on the target; both are covered. *)

Inductive arch := Arch32 | Arch64.

Definition intSize (a : arch) : Z :=
  match a with Arch32 => 32 | Arch64 => 64 end.

Section GoInt.
Variable a : arch.

(** Two's-complement reduction to an [int]. *)
Definition int_wrap (z : Z) : Z :=
  (z + 2 ^ (intSize a - 1)) mod 2 ^ intSize a - 2 ^ (intSize a - 1).

(** [int(x)] for [x uint32], [-k] for [k int], [uint(k)] for [k int]. *)
Definition int_of_uint32 (x : Z) : Z := int_wrap x.
Definition int_neg (k : Z) : Z := int_wrap (- k).
Definition uint_of_int (k : Z) : Z := k mod 2 ^ intSize a.
Definition uint_sub (x y : Z) : Z := (x - y) mod 2 ^ intSize a.

End GoInt.

(** [math/bits]:
    [func RotateLeft32(x uint32, k int) uint32 {
       const n = 32; s := uint(k) & (n - 1); return x<<s | x>>(n-s) }] *)
Module bits.

Definition RotateLeft32 (a : arch) (x k : Z) : Z :=
  let n := 32 in
  let s := Z.land (uint_of_int a k) (n - 1) in
  Z.lor (shl32 x s) (shr32 x (uint_sub a n s)).

End bits.

(** [encoding/binary], the [LittleEndian] byte order: both functions check
    [b[3]] before touching any other byte. *)
Module binary.
Module LittleEndian.

Definition Uint32 (b : slice) : M Z :=
  index b 3 ;;;
  b0 <- index b 0 ;;
  b1 <- index b 1 ;;
  b2 <- index b 2 ;;
  b3 <- index b 3 ;;
  ret (le_word b0 b1 b2 b3).

Definition PutUint32 (b : slice) (v : Z) : M unit :=
  index b 3 ;;;
  store b 0 (byte_of_uint32 v) ;;;
  store b 1 (byte_of_uint32 (shr32 v 8)) ;;;
  store b 2 (byte_of_uint32 (shr32 v 16)) ;;;
  store b 3 (byte_of_uint32 (shr32 v 24)).

End LittleEndian.
End binary.

(** ** src/unnamed/part_000 *)
Module Part000.

Import bits binary.

Section WithArch.
Variable a : arch.

Fixpoint loadKey (n i : nat) (L : list Z) (key : slice) : M (list Z) :=
  match n with
  | O => ret L
  | S n' =>
      k4 <- slice_to key 4 ;;
      w <- LittleEndian.Uint32 k4 ;;
      key' <- slice_from key 4 ;;
      loadKey n' (S i) (update L i w) key'
  end.

Fixpoint mix (n : nat) (rks L : list Z) (A B : Z) (i j : nat) : list Z :=
  match n with
  | O => rks
  | S n' =>
      let rks := update rks i (RotateLeft32 a (add32 (nth i rks 0) (add32 A B)) 3) in
      let A := nth i rks 0 in
      let L := update L j (RotateLeft32 a (add32 (nth j L 0) (add32 A B))
                                        (int_of_uint32 a (add32 A B))) in
      let B := nth j L 0 in
      mix n' rks L A B ((i + 1) mod roundKeys)%nat ((j + 1) mod keyWords)%nat
  end.

Definition New (key : slice) : M (error + rc5cipher) :=
  let l := len key in
  if negb (l =? 16)%nat then ret (inl (KeySizeError (Z.of_nat l)))
  else
    L <- loadKey keyWords 0 (repeat 0 keyWords) key ;;
    let rks := copy (repeat 0 roundKeys) skeytable in
    ret (inr (mkCipher (mix (3 * roundKeys) rks L 0 0 0 0))).

Fixpoint encRounds (n : nat) (rks : list Z) (A B : Z) (kidx : nat) : Z * Z :=
  match n with
  | O => (A, B)
  | S n' =>
      let A := add32 (RotateLeft32 a (Z.lxor A B) (int_of_uint32 a B))
                     (nth kidx rks 0) in
      let B := add32 (RotateLeft32 a (Z.lxor B A) (int_of_uint32 a A))
                     (nth (kidx + 1) rks 0) in
      encRounds n' rks A B (kidx + 2)
  end.

Definition Encrypt (c : rc5cipher) (dst src : slice) : M unit :=
  s0 <- slice_to src 4 ;;
  x <- LittleEndian.Uint32 s0 ;;
  let A := add32 x (nth 0 (rk c) 0) in
  s4 <- slice_range src 4 8 ;;
  y <- LittleEndian.Uint32 s4 ;;
  let B := add32 y (nth 1 (rk c) 0) in
  let '(A, B) := encRounds rounds (rk c) A B 2 in
  d0 <- slice_to dst 4 ;;
  LittleEndian.PutUint32 d0 A ;;;
  d4 <- slice_range dst 4 8 ;;
  LittleEndian.PutUint32 d4 B.

Fixpoint decRounds (n : nat) (rks : list Z) (A B : Z) (kidx : nat) : Z * Z :=
  match n with
  | O => (A, B)
  | S n' =>
      let B := Z.lxor (RotateLeft32 a (sub32 B (nth (kidx + 1) rks 0))
                                    (int_neg a (int_of_uint32 a A))) A in
      let A := Z.lxor (RotateLeft32 a (sub32 A (nth kidx rks 0))
                                    (int_neg a (int_of_uint32 a B))) B in
      decRounds n' rks A B (kidx - 2)
  end.

Definition Decrypt (c : rc5cipher) (dst src : slice) : M unit :=
  s0 <- slice_to src 4 ;;
  A <- LittleEndian.Uint32 s0 ;;
  s4 <- slice_range src 4 8 ;;
  B <- LittleEndian.Uint32 s4 ;;
  let '(A, B) := decRounds rounds (rk c) A B (2 * rounds) in
  d4 <- slice_range dst 4 8 ;;
  LittleEndian.PutUint32 d4 (sub32 B (nth 1 (rk c) 0)) ;;;
  d0 <- slice_to dst 4 ;;
  LittleEndian.PutUint32 d0 (sub32 A (nth 0 (rk c) 0)).

End WithArch.
End Part000.

(** ** The algorithm as the specification words it (sections 3 and 4)

    These definitions follow the prose, not the code: rotations are circular
    shifts written with multiplication and division, bytes are packed by
    positional weight, and the loops are folds over the round numbers. *)
Module Spec.

Definition P : Z := 0xb7e15163.
Definition Q : Z := 0x9e3779b9.

(** Circular shift of a 32-bit word by [amount mod 32]. *)
Definition rotate_left_32 (x amount : Z) : Z :=
  let s := amount mod 32 in
  (x * 2 ^ s) mod 2 ^ 32 + x / 2 ^ (32 - s).

Definition rotate_right_32 (x amount : Z) : Z :=
  let s := amount mod 32 in
  x / 2 ^ s + (x * 2 ^ (32 - s)) mod 2 ^ 32.

(** Least-significant byte first. *)
Fixpoint little_endian (bs : list byte) : Z :=
  match bs with
  | [] => 0
  | b :: bs' => uint32_of_byte b + 256 * little_endian bs'
  end.

Definition little_endian_u32 (bs : list byte) : Z := little_endian (firstn 4 bs).

Definition u32_bytes (w : Z) : list byte :=
  map (fun i => byte_of_uint32 (w / 256 ^ i)) [0; 1; 2; 3].

(** MagicTable: [S[0] = P], [S[i] = S[i-1] + Q mod 2^32]. *)
Fixpoint magic (i : nat) : Z :=
  match i with
  | O => P
  | S i' => (magic i' + Q) mod 2 ^ 32
  end.

Definition MagicTable : list Z := map magic (seq 0 26).

(** Key words: word [i] is bytes [4i .. 4i+3] of the key. *)
Definition key_words (key : list byte) : list Z :=
  map (fun i => little_endian_u32 (skipn (4 * i) key)) (seq 0 4).

Record expansion := mkExp {
  eS : list Z; eL : list Z; eA : Z; eB : Z; ei : nat; ej : nat }.

Definition expand_step (e : expansion) : expansion :=
  let Si := rotate_left_32 ((nth (ei e) (eS e) 0 + eA e + eB e) mod 2 ^ 32) 3 in
  let A := Si in
  let Lj := rotate_left_32 ((nth (ej e) (eL e) 0 + A + eB e) mod 2 ^ 32)
                           ((A + eB e) mod 32) in
  mkExp (update (eS e) (ei e) Si) (update (eL e) (ej e) Lj) A Lj
        ((ei e + 1) mod 26)%nat ((ej e + 1) mod 4)%nat.

Definition expand (key : list byte) : list Z :=
  eS (Nat.iter (3 * 26) expand_step (mkExp MagicTable (key_words key) 0 0 0 0)).

Definition encrypt_round (S : list Z) (AB : Z * Z) (r : nat) : Z * Z :=
  let '(A, B) := AB in
  let A := (rotate_left_32 (Z.lxor A B) (B mod 32) + nth (2 * r) S 0) mod 2 ^ 32 in
  let B := (rotate_left_32 (Z.lxor B A) (A mod 32) + nth (2 * r + 1) S 0) mod 2 ^ 32 in
  (A, B).

Definition encrypt (S : list Z) (src : list byte) : list byte :=
  let A := (little_endian_u32 src + nth 0 S 0) mod 2 ^ 32 in
  let B := (little_endian_u32 (skipn 4 src) + nth 1 S 0) mod 2 ^ 32 in
  let '(A, B) := fold_left (encrypt_round S) (seq 1 12) (A, B) in
  u32_bytes A ++ u32_bytes B.

Definition decrypt_round (S : list Z) (AB : Z * Z) (r : nat) : Z * Z :=
  let '(A, B) := AB in
  let B := Z.lxor (rotate_right_32 ((B - nth (2 * r + 1) S 0) mod 2 ^ 32) (A mod 32)) A in
  let A := Z.lxor (rotate_right_32 ((A - nth (2 * r) S 0) mod 2 ^ 32) (B mod 32)) B in
  (A, B).

Definition decrypt (S : list Z) (src : list byte) : list byte :=
  let A := little_endian_u32 src in
  let B := little_endian_u32 (skipn 4 src) in
  let '(A, B) := fold_left (decrypt_round S) (rev (seq 1 12)) (A, B) in
  let B := (B - nth 1 S 0) mod 2 ^ 32 in
  let A := (A - nth 0 S 0) mod 2 ^ 32 in
  u32_bytes A ++ u32_bytes B.

End Spec.

(** ** Derived forms used by the proofs *)

(** The word stored little-endian at address [a]. *)
Definition word_at (m : mem) (a : nat) : Z :=
  le_word (m (a + 0)%nat) (m (a + 1)%nat) (m (a + 2)%nat) (m (a + 3)%nat).

(** The store after the four writes of [putUint32]. *)
Definition put4 (m : mem) (a : nat) (v : Z) : mem :=
  upd (upd (upd (upd m (a + 0)%nat (byte_of_uint32 v))
                (a + 1)%nat (byte_of_uint32 (shr32 v 8)))
           (a + 2)%nat (byte_of_uint32 (shr32 v 16)))
      (a + 3)%nat (byte_of_uint32 (shr32 v 24)).

(** Words in, words out: the arithmetic of [Encrypt] and [Decrypt] between
    the reads and the writes. *)
Definition enc_words (rks : list Z) (x y : Z) : Z * Z :=
  Rc5.encRounds rounds rks (add32 x (nth 0 rks 0)) (add32 y (nth 1 rks 0)) 2.

Definition dec_words (rks : list Z) (x y : Z) : Z * Z :=
  let '(A, B) := Rc5.decRounds rounds rks x y (2 * rounds) in
  (sub32 A (nth 0 rks 0), sub32 B (nth 1 rks 0)).

(** The store [Encrypt] leaves (A is written first) and the store [Decrypt]
    leaves (B is written first). *)
Definition enc_store (c : rc5cipher) (m : mem) (dst src : slice) : mem :=
  let AB := enc_words (rk c) (word_at m (off src)) (word_at m (off src + 4)) in
  put4 (put4 m (off dst) (fst AB)) (off dst + 4) (snd AB).

Definition dec_store (c : rc5cipher) (m : mem) (dst src : slice) : mem :=
  let AB := dec_words (rk c) (word_at m (off src)) (word_at m (off src + 4)) in
  put4 (put4 m (off dst + 4) (snd AB)) (off dst) (fst AB).

Ltac long_slice b H :=
  let o := fresh "o" in
  let l := fresh "l" in
  let s := fresh "s" in
  destruct b as [o l s]; cbn [len off spare] in H |- *;
  do 8 (destruct l as [|l]; [exfalso; lia|]); clear H.

(** The four key words [New] loads from a 16-byte key at address [o]. *)
Definition key_at (m : mem) (o : nat) : list Z :=
  [word_at m o; word_at m (o + 4); word_at m (o + 4 + 4); word_at m (o + 4 + 4 + 4)].

Definition schedule_of (L : list Z) : list Z :=
  Rc5.mix (3 * roundKeys) skeytable L 0 0 0 0.

Ltac upd_cases :=
  unfold put4, upd;
  repeat match goal with
         | |- context [Nat.eqb ?x ?y] =>
             destruct (Nat.eqb_spec x y); try (exfalso; lia)
         end.

Definition pair_uint32 (p : Z * Z) : Prop := is_uint32 (fst p) /\ is_uint32 (snd p).

(** ** The properties, stated once for both source files *)

Definition new_fn : Type := slice -> M (error + rc5cipher).
Definition block_fn : Type := rc5cipher -> slice -> slice -> M unit.

(** Expanding [key], encrypting [src] into [dst] and decrypting [dst] into
    [out] all return, and [out] then holds what [src] held at the start. *)
Definition round_trips (New : new_fn) (Encrypt Decrypt : block_fn)
    (m : mem) (key src dst out : slice) : Prop :=
  exists c m1 m2,
    New key m = (Some (inr c), m) /\
    Encrypt c dst src m = (Some tt, m1) /\
    Decrypt c out dst m1 = (Some tt, m2) /\
    contents m2 out = contents m src.

(** The transform returns and leaves in [dst] what [f] makes of the schedule
    and of the bytes [src] held. *)
Definition computes (T : block_fn) (f : list Z -> list byte -> list byte)
    (c : rc5cipher) (m : mem) (dst src : slice) : Prop :=
  exists m', T c dst src m = (Some tt, m') /\
             contents m' dst = f (rk c) (contents m src).

(** Transforming [buf] onto itself leaves in it what transforming it into
    [dst] leaves in [dst]. *)
Definition in_place (T : block_fn) (c : rc5cipher) (m : mem) (buf dst : slice) : Prop :=
  exists m1 m2,
    T c buf buf m = (Some tt, m1) /\
    T c dst buf m = (Some tt, m2) /\
    contents m1 buf = contents m2 dst.

(** The transform returns; it changes nothing outside the first eight bytes
    of [dst]; and a store that agrees on the first eight bytes of [src] gives
    the same eight bytes of output. *)
Definition first8_only (T : block_fn) (c : rc5cipher) (m : mem) (dst src : slice) : Prop :=
  exists m',
    T c dst src m = (Some tt, m') /\
    (forall x, (x < off dst \/ off dst + 8 <= x)%nat -> m' x = m x) /\
    (forall i, (8 <= i)%nat -> m' (off dst + i)%nat = m (off dst + i)%nat) /\
    (forall n, bytes_at n (off src) 8 = bytes_at m (off src) 8 ->
       exists n', T c dst src n = (Some tt, n') /\
                  bytes_at n' (off dst) 8 = bytes_at m' (off dst) 8).

(** ** Sample inputs: an all-zero store holding a key and three blocks *)

Definition zero_store : mem := fun _ => x00.
Definition key0 : slice := mkSlice 0 16 0.
Definition src0 : slice := mkSlice 16 8 0.
Definition dst0 : slice := mkSlice 24 8 0.
Definition out0 : slice := mkSlice 32 8 0.
Definition short_key : slice := mkSlice 0 15 1.
Definition c0 : rc5cipher := mkCipher skeytable.
Definition short_dst : slice := mkSlice 24 6 2.

(** ** The error message and partial writes *)

(** [strconv.Itoa]: the decimal digits, with a minus sign before a negative
    number. *)
Module strconv.

Definition Itoa (i : Z) : String.string :=
  DecimalString.NilZero.string_of_int (Z.to_int i).

End strconv.

Section ErrorMessage.
Import String.

(** [func (k KeySizeError) Error() string] *)
Definition Error (k : error) : string :=
  match k with
  | KeySizeError l => append "rc5: invalid key size "%string (strconv.Itoa l)
  end.

Definition Error_prefix : string := "rc5: invalid key size "%string.

End ErrorMessage.

(** The store that holds [full] on the addresses from [lo] up to, not
    including, [hi] and [m] everywhere else. *)
Definition clobbered (lo hi : nat) (full m : mem) : mem :=
  fun x => if ((lo <=? x) && (x <? hi))%nat then full x else m x.

Definition same_store (m n : mem) : Prop := forall x, m x = n x.

(** Decrypting [src] into [dst] and encrypting [dst] into [out] both return,
    and [out] then holds what [src] held at the start. *)
Definition trips_back (Encrypt Decrypt : block_fn)
    (c : rc5cipher) (m : mem) (src dst out : slice) : Prop :=
  exists m1 m2,
    Decrypt c dst src m = (Some tt, m1) /\
    Encrypt c out dst m1 = (Some tt, m2) /\
    contents m2 out = contents m src.

Ltac clob_cases :=
  unfold clobbered;
  repeat match goal with
         | |- context [Nat.leb ?x ?y] =>
             destruct (Nat.leb_spec x y); try (exfalso; lia)
         | |- context [Nat.ltb ?x ?y] =>
             destruct (Nat.ltb_spec x y); try (exfalso; lia)
         end;
  cbn [andb]; upd_cases; try reflexivity.

(** * Properties *)

(** ** Words *)

Lemma pow2_32 : 2 ^ 32 = 4294967296.
Proof. reflexivity. Qed.

Lemma wrap32_range z : is_uint32 (wrap32 z).
Proof. unfold is_uint32, wrap32. apply Z.mod_pos_bound. reflexivity. Qed.

Lemma wrap32_small z : is_uint32 z -> wrap32 z = z.
Proof. unfold is_uint32, wrap32. intros H. apply Z.mod_small. exact H. Qed.

Lemma add32_range x y : is_uint32 (add32 x y).
Proof. apply wrap32_range. Qed.

Lemma sub32_range x y : is_uint32 (sub32 x y).
Proof. apply wrap32_range. Qed.

Lemma sub32_add32 x k : is_uint32 x -> sub32 (add32 x k) k = x.
Proof.
  intros H. unfold sub32, add32, wrap32.
  rewrite Zminus_mod_idemp_l.
  replace (x + k - k) with x by ring.
  apply Z.mod_small. exact H.
Qed.

Lemma add32_sub32 x k : is_uint32 x -> add32 (sub32 x k) k = x.
Proof.
  intros H. unfold sub32, add32, wrap32.
  rewrite Zplus_mod_idemp_l.
  replace (x - k + k) with x by ring.
  apply Z.mod_small. exact H.
Qed.

Lemma testbit_high_false n x i :
  0 <= n -> 0 <= x < 2 ^ n -> n <= i -> Z.testbit x i = false.
Proof.
  intros Hn Hx Hi.
  rewrite <- (Z.mod_small x (2 ^ n)) by exact Hx.
  apply Z.mod_pow2_bits_high. lia.
Qed.

Lemma bounded_by_bits n x :
  0 <= n -> 0 <= x -> (forall i, n <= i -> Z.testbit x i = false) -> x < 2 ^ n.
Proof.
  intros Hn Hx Hb.
  destruct (Z.eq_dec x 0) as [-> | Hne].
  - apply Z.pow_pos_nonneg; lia.
  - apply Z.log2_lt_pow2; [lia|].
    destruct (Z_lt_le_dec (Z.log2 x) n) as [Hlt | Hge]; [exact Hlt|].
    assert (Hbit : Z.testbit x (Z.log2 x) = true) by (apply Z.bit_log2; lia).
    rewrite Hb in Hbit by exact Hge. discriminate.
Qed.

Lemma lxor_range x y : is_uint32 x -> is_uint32 y -> is_uint32 (Z.lxor x y).
Proof.
  unfold is_uint32. intros Hx Hy. split.
  - apply Z.lxor_nonneg. lia.
  - apply bounded_by_bits; [lia | apply Z.lxor_nonneg; lia |].
    intros i Hi. rewrite Z.lxor_spec.
    rewrite (testbit_high_false 32 x), (testbit_high_false 32 y) by lia.
    reflexivity.
Qed.

Lemma lor_range x y : is_uint32 x -> is_uint32 y -> is_uint32 (Z.lor x y).
Proof.
  unfold is_uint32. intros Hx Hy. split.
  - apply Z.lor_nonneg. lia.
  - apply bounded_by_bits; [lia | apply Z.lor_nonneg; lia |].
    intros i Hi. rewrite Z.lor_spec.
    rewrite (testbit_high_false 32 x), (testbit_high_false 32 y) by lia.
    reflexivity.
Qed.

(** A multiple of [2^n] and a number below [2^n] share no bit. *)
Lemma lor_disjoint n x y :
  0 <= n -> 0 <= y < 2 ^ n -> Z.lor (x * 2 ^ n) y = x * 2 ^ n + y.
Proof.
  intros Hn Hy.
  rewrite <- (Z.add_lor_land (x * 2 ^ n) y).
  assert (Hz : Z.land (x * 2 ^ n) y = 0).
  { apply Z.bits_inj'. intros i Hi.
    rewrite Z.land_spec, Z.bits_0.
    destruct (Z_lt_le_dec i n) as [Hlt | Hge].
    - rewrite Z.mul_pow2_bits_low by lia. reflexivity.
    - rewrite (testbit_high_false n y) by lia. apply andb_false_r. }
  rewrite Hz. ring.
Qed.

Lemma lor_disjoint' n x y :
  0 <= n -> 0 <= y < 2 ^ n -> Z.lor y (x * 2 ^ n) = y + x * 2 ^ n.
Proof.
  intros. rewrite Z.lor_comm, lor_disjoint by assumption. ring.
Qed.

Lemma land31 x : Z.land x 31 = x mod 32.
Proof. change 31 with (Z.ones 5). rewrite Z.land_ones by lia. reflexivity. Qed.

Lemma land31_range x : 0 <= Z.land x 31 < 32.
Proof. rewrite land31. apply Z.mod_pos_bound. lia. Qed.

(** ** Rotations *)

Lemma pow2_split s : 0 <= s <= 32 -> 2 ^ 32 = 2 ^ (32 - s) * 2 ^ s.
Proof.
  intros Hs. rewrite <- Z.pow_add_r by lia. f_equal. lia.
Qed.

Lemma pow2_pos n : 0 <= n -> 0 < 2 ^ n.
Proof. intros. apply Z.pow_pos_nonneg; lia. Qed.

(** Left rotation moves the low [32 - s] bits up and the high [s] bits down. *)
Lemma rotate_left_32_form k s :
  is_uint32 k -> 0 <= s < 32 ->
  Spec.rotate_left_32 k s = (k mod 2 ^ (32 - s)) * 2 ^ s + k / 2 ^ (32 - s).
Proof.
  intros Hk Hs. unfold Spec.rotate_left_32.
  rewrite (Z.mod_small s 32) by lia. cbv zeta.
  rewrite (pow2_split s) by lia.
  rewrite Z.mul_mod_distr_r; [reflexivity | | ]; apply Z.neq_sym, Z.lt_neq, pow2_pos; lia.
Qed.

Lemma rotate_right_32_form k s :
  is_uint32 k -> 0 <= s < 32 ->
  Spec.rotate_right_32 k s = k / 2 ^ s + (k mod 2 ^ s) * 2 ^ (32 - s).
Proof.
  intros Hk Hs. unfold Spec.rotate_right_32.
  rewrite (Z.mod_small s 32) by lia. cbv zeta.
  rewrite (pow2_split (32 - s)) by lia.
  replace (32 - (32 - s)) with s by ring.
  rewrite Z.mul_mod_distr_r; [reflexivity | | ]; apply Z.neq_sym, Z.lt_neq, pow2_pos; lia.
Qed.

Lemma high_part_bound k s :
  is_uint32 k -> 0 <= s <= 32 -> 0 <= k / 2 ^ (32 - s) < 2 ^ s.
Proof.
  intros Hk Hs. unfold is_uint32 in Hk. split.
  - apply Z.div_pos; [lia | apply pow2_pos; lia].
  - apply Z.div_lt_upper_bound; [apply pow2_pos; lia|].
    rewrite <- pow2_split by lia. lia.
Qed.

Lemma rotate_left_32_range k s : is_uint32 k -> is_uint32 (Spec.rotate_left_32 k s).
Proof.
  intros Hk. unfold Spec.rotate_left_32. cbv zeta.
  assert (Hs : 0 <= s mod 32 < 32) by (apply Z.mod_pos_bound; lia).
  pose proof (rotate_left_32_form k (s mod 32) Hk Hs) as E.
  unfold Spec.rotate_left_32 in E. cbv zeta in E.
  rewrite Z.mod_mod in E by lia. rewrite E. clear E.
  set (r := s mod 32) in *.
  pose proof (high_part_bound k r Hk ltac:(lia)) as Hh.
  pose proof (Z.mod_pos_bound k (2 ^ (32 - r)) (pow2_pos (32 - r) ltac:(lia))) as Hl.
  pose proof (pow2_pos r ltac:(lia)) as Hp.
  unfold is_uint32. rewrite (pow2_split r) by lia. nia.
Qed.

Lemma rotate_right_32_range k s : is_uint32 k -> is_uint32 (Spec.rotate_right_32 k s).
Proof.
  intros Hk. unfold Spec.rotate_right_32. cbv zeta.
  assert (Hs : 0 <= s mod 32 < 32) by (apply Z.mod_pos_bound; lia).
  pose proof (rotate_right_32_form k (s mod 32) Hk Hs) as E.
  unfold Spec.rotate_right_32 in E. cbv zeta in E.
  rewrite Z.mod_mod in E by lia. rewrite E. clear E.
  set (r := s mod 32) in *.
  pose proof (high_part_bound k (32 - r) Hk ltac:(lia)) as Hh.
  replace (32 - (32 - r)) with r in Hh by ring.
  pose proof (Z.mod_pos_bound k (2 ^ r) (pow2_pos r ltac:(lia))) as Hl.
  pose proof (pow2_pos (32 - r) ltac:(lia)) as Hp.
  unfold is_uint32. rewrite (pow2_split r) by lia. nia.
Qed.

Lemma rotate_amount_mod k s :
  Spec.rotate_left_32 k (s mod 32) = Spec.rotate_left_32 k s /\
  Spec.rotate_right_32 k (s mod 32) = Spec.rotate_right_32 k s.
Proof.
  unfold Spec.rotate_left_32, Spec.rotate_right_32.
  rewrite Z.mod_mod by lia. split; reflexivity.
Qed.

(** Rotating right undoes rotating left by the same amount. *)
Lemma rotate_right_left k s :
  is_uint32 k -> Spec.rotate_right_32 (Spec.rotate_left_32 k s) s = k.
Proof.
  intros Hk.
  destruct (rotate_amount_mod k s) as [<- _].
  destruct (rotate_amount_mod (Spec.rotate_left_32 k (s mod 32)) s) as [_ <-].
  assert (Hs : 0 <= s mod 32 < 32) by (apply Z.mod_pos_bound; lia).
  set (r := s mod 32) in *.
  rewrite rotate_right_32_form by (auto using rotate_left_32_range).
  rewrite rotate_left_32_form by assumption.
  pose proof (high_part_bound k r Hk ltac:(lia)) as Hh.
  pose proof (pow2_pos r ltac:(lia)) as Hp.
  rewrite Z.div_add_l by lia.
  rewrite (Z.div_small (k / 2 ^ (32 - r))) by exact Hh.
  rewrite Z.add_comm with (n := k mod 2 ^ (32 - r) * 2 ^ r).
  rewrite Z.mod_add by lia.
  rewrite (Z.mod_small (k / 2 ^ (32 - r))) by exact Hh.
  rewrite (Z.div_mod k (2 ^ (32 - r))) at 3
    by (apply Z.neq_sym, Z.lt_neq, pow2_pos; lia).
  ring.
Qed.

(** The Go expressions of src/rc5.go are circular shifts for every amount
    from 0 to 32. *)
Lemma rotl32_circular k r :
  is_uint32 k -> 0 <= r <= 32 -> Rc5.rotl32 k r = Spec.rotate_left_32 k r.
Proof.
  intros Hk Hr. unfold Rc5.rotl32, shl32, shr32, sub32, wrap32.
  assert (H32 : (32 - r) mod 2 ^ 32 = 32 - r)
    by (apply Z.mod_small; rewrite pow2_32; lia).
  rewrite H32.
  destruct (Z.eq_dec r 32) as [-> | Hne32].
  { unfold Spec.rotate_left_32. change (32 mod 32) with 0.
    change (32 <=? 32) with true. change (32 <=? 32 - 32) with false.
    change (32 - 32) with 0. change (32 - 0) with 32. change (2 ^ 0) with 1.
    rewrite Z.shiftr_0_r, Z.mul_1_r, Z.mod_small, Z.div_small by exact Hk.
    rewrite Z.lor_0_l. ring. }
  destruct (Z.eq_dec r 0) as [-> | Hne0].
  { unfold Spec.rotate_left_32. change (0 mod 32) with 0.
    change (32 <=? 0) with false. change (32 <=? 32 - 0) with true.
    change (32 - 0) with 32. change (2 ^ 0) with 1.
    rewrite Z.shiftl_0_r, Z.mul_1_r, Z.mod_small, Z.div_small by exact Hk.
    rewrite Z.lor_0_r. ring. }
  destruct (Z.leb_spec 32 r); [lia|].
  destruct (Z.leb_spec 32 (32 - r)); [lia|].
  rewrite rotate_left_32_form by (auto; lia).
  rewrite Z.shiftl_mul_pow2, Z.shiftr_div_pow2 by lia.
  rewrite (pow2_split r) at 1 by lia.
  rewrite Z.mul_mod_distr_r by (apply Z.neq_sym, Z.lt_neq, pow2_pos; lia).
  apply lor_disjoint; [lia | apply high_part_bound; [assumption | lia]].
Qed.

Lemma rotr32_circular k r :
  is_uint32 k -> 0 <= r <= 32 -> Rc5.rotr32 k r = Spec.rotate_right_32 k r.
Proof.
  intros Hk Hr. unfold Rc5.rotr32, shl32, shr32, sub32, wrap32.
  assert (H32 : (32 - r) mod 2 ^ 32 = 32 - r)
    by (apply Z.mod_small; rewrite pow2_32; lia).
  rewrite H32.
  destruct (Z.eq_dec r 32) as [-> | Hne32].
  { unfold Spec.rotate_right_32. change (32 mod 32) with 0.
    change (32 <=? 32) with true. change (32 <=? 32 - 32) with false.
    change (32 - 32) with 0. change (32 - 0) with 32. change (2 ^ 0) with 1.
    rewrite Z.shiftl_0_r, Z.div_1_r, Z_mod_mult, (Z.mod_small k) by exact Hk.
    rewrite Z.lor_0_l. ring. }
  destruct (Z.eq_dec r 0) as [-> | Hne0].
  { unfold Spec.rotate_right_32. change (0 mod 32) with 0.
    change (32 <=? 0) with false. change (32 <=? 32 - 0) with true.
    change (32 - 0) with 32. change (2 ^ 0) with 1.
    rewrite Z.shiftr_0_r, Z.div_1_r, Z_mod_mult.
    rewrite Z.lor_0_r. ring. }
  destruct (Z.leb_spec 32 r); [lia|].
  destruct (Z.leb_spec 32 (32 - r)); [lia|].
  rewrite rotate_right_32_form by (auto; lia).
  rewrite Z.shiftl_mul_pow2, Z.shiftr_div_pow2 by lia.
  rewrite (pow2_split (32 - r)) at 1 by lia.
  replace (32 - (32 - r)) with r by ring.
  rewrite Z.mul_mod_distr_r by (apply Z.neq_sym, Z.lt_neq, pow2_pos; lia).
  apply lor_disjoint'; [lia|].
  pose proof (high_part_bound k (32 - r) Hk ltac:(lia)) as Hh.
  replace (32 - (32 - r)) with r in Hh by ring. exact Hh.
Qed.

(** ** [bits.RotateLeft32] *)

Lemma int_wrap_mod32 a z : int_wrap a z mod 32 = z mod 32.
Proof.
  unfold int_wrap. destruct a; cbn [intSize];
    [change (2 ^ (32 - 1)) with 2147483648; change (2 ^ 32) with 4294967296
    |change (2 ^ (64 - 1)) with 9223372036854775808;
     change (2 ^ 64) with 18446744073709551616];
    Z.div_mod_to_equations; lia.
Qed.

Lemma uint_of_int_mod32 a k : uint_of_int a k mod 32 = k mod 32.
Proof.
  unfold uint_of_int. destruct a; cbn [intSize];
    [change (2 ^ 32) with 4294967296
    |change (2 ^ 64) with 18446744073709551616];
    Z.div_mod_to_equations; lia.
Qed.

Lemma uint_sub_small a s : 0 <= s < 32 -> uint_sub a 32 s = 32 - s.
Proof.
  intros Hs. unfold uint_sub. apply Z.mod_small.
  destruct a; cbn [intSize];
    [change (2 ^ 32) with 4294967296
    |change (2 ^ 64) with 18446744073709551616]; lia.
Qed.

(** The library rotation is the masked rotation of src/rc5.go. *)
Lemma RotateLeft32_rotl32 a x k :
  bits.RotateLeft32 a x k = Rc5.rotl32 x (k mod 32).
Proof.
  unfold bits.RotateLeft32, Rc5.rotl32. cbv zeta.
  change (32 - 1) with 31.
  rewrite land31, uint_of_int_mod32.
  assert (Hs : 0 <= k mod 32 < 32) by (apply Z.mod_pos_bound; lia).
  rewrite uint_sub_small by exact Hs.
  unfold sub32, wrap32. rewrite (Z.mod_small (32 - k mod 32)) by (rewrite pow2_32; lia).
  reflexivity.
Qed.

Lemma RotateLeft32_circular a x k :
  is_uint32 x -> bits.RotateLeft32 a x k = Spec.rotate_left_32 x k.
Proof.
  intros Hx. rewrite RotateLeft32_rotl32.
  assert (Hs : 0 <= k mod 32 < 32) by (apply Z.mod_pos_bound; lia).
  rewrite rotl32_circular by (auto; lia).
  apply rotate_amount_mod.
Qed.

(** Rotating left by [-s] is rotating right by [s]. *)
Lemma rotate_left_neg x s :
  is_uint32 x -> Spec.rotate_left_32 x (- s) = Spec.rotate_right_32 x s.
Proof.
  intros Hx.
  destruct (rotate_amount_mod x (- s)) as [<- _].
  destruct (rotate_amount_mod x s) as [_ <-].
  assert (Hs : 0 <= s mod 32 < 32) by (apply Z.mod_pos_bound; lia).
  destruct (Z.eq_dec (s mod 32) 0) as [E | NE].
  - assert (E' : (- s) mod 32 = 0) by (Z.div_mod_to_equations; lia).
    rewrite E, E'. unfold Spec.rotate_left_32, Spec.rotate_right_32.
    change (0 mod 32) with 0. change (32 - 0) with 32. change (2 ^ 0) with 1.
    rewrite Z.mul_1_r, Z.div_1_r, Z_mod_mult, Z.mod_small, Z.div_small by exact Hx.
    ring.
  - assert (E' : (- s) mod 32 = 32 - s mod 32) by (Z.div_mod_to_equations; lia).
    rewrite E'. set (r := s mod 32) in *.
    rewrite rotate_left_32_form, rotate_right_32_form by (auto; lia).
    replace (32 - (32 - r)) with r by ring. ring.
Qed.

Lemma RotateLeft32_neg a x k :
  is_uint32 x ->
  bits.RotateLeft32 a x (int_neg a (int_of_uint32 a k)) = Rc5.rotr32 x (Z.land k 31).
Proof.
  intros Hx. rewrite RotateLeft32_circular by exact Hx.
  rewrite rotr32_circular by (auto; pose proof (land31_range k); lia).
  rewrite land31.
  destruct (rotate_amount_mod x (int_neg a (int_of_uint32 a k))) as [<- _].
  destruct (rotate_amount_mod x k) as [_ ->].
  unfold int_neg, int_of_uint32. rewrite int_wrap_mod32.
  assert (E : (- int_wrap a k) mod 32 = (- k) mod 32).
  { pose proof (int_wrap_mod32 a k). Z.div_mod_to_equations; lia. }
  rewrite E.
  destruct (rotate_amount_mod x (- k)) as [-> _].
  apply rotate_left_neg. exact Hx.
Qed.

Lemma RotateLeft32_pos a x k :
  bits.RotateLeft32 a x (int_of_uint32 a k) = Rc5.rotl32 x (Z.land k 31).
Proof.
  rewrite RotateLeft32_rotl32. unfold int_of_uint32.
  rewrite int_wrap_mod32, land31. reflexivity.
Qed.

Lemma RotateLeft32_3 a x : bits.RotateLeft32 a x 3 = Rc5.rotl32 x 3.
Proof. rewrite RotateLeft32_rotl32. reflexivity. Qed.

(** ** Bytes and little-endian words *)

Lemma uint32_of_byte_range b : 0 <= uint32_of_byte b < 256.
Proof.
  unfold uint32_of_byte. pose proof (Byte.to_N_bounded b). lia.
Qed.

Lemma uint32_of_byte_of_uint32 v : uint32_of_byte (byte_of_uint32 v) = v mod 256.
Proof.
  unfold uint32_of_byte, byte_of_uint32.
  assert (Hv : 0 <= v mod 256 < 256) by (apply Z.mod_pos_bound; lia).
  destruct (Byte.of_N (Z.to_N (v mod 256))) as [b|] eqn:E.
  - apply Byte.to_of_N in E. rewrite E. lia.
  - apply Byte.of_N_None_iff in E. lia.
Qed.

Lemma byte_of_uint32_of_byte b : byte_of_uint32 (uint32_of_byte b) = b.
Proof.
  unfold byte_of_uint32.
  rewrite Z.mod_small by apply uint32_of_byte_range.
  unfold uint32_of_byte. rewrite N2Z.id, Byte.of_to_N. reflexivity.
Qed.

Lemma byte_of_uint32_mod v : byte_of_uint32 (v mod 256) = byte_of_uint32 v.
Proof. unfold byte_of_uint32. rewrite Z.mod_mod by lia. reflexivity. Qed.

Lemma le_word_little_endian b0 b1 b2 b3 :
  le_word b0 b1 b2 b3 = Spec.little_endian [b0; b1; b2; b3].
Proof.
  pose proof (uint32_of_byte_range b0) as H0.
  pose proof (uint32_of_byte_range b1) as H1.
  pose proof (uint32_of_byte_range b2) as H2.
  pose proof (uint32_of_byte_range b3) as H3.
  unfold le_word, shl32, wrap32. cbn [Spec.little_endian].
  change (32 <=? 8) with false. change (32 <=? 16) with false.
  change (32 <=? 24) with false. cbv iota.
  rewrite !Z.shiftl_mul_pow2 by lia. rewrite pow2_32.
  change (2 ^ 8) with 256. change (2 ^ 16) with 65536. change (2 ^ 24) with 16777216.
  rewrite !Z.mod_small by lia.
  change 256 with (2 ^ 8) at 1. rewrite lor_disjoint' by (change (2 ^ 8) with 256; lia).
  change 65536 with (2 ^ 16). rewrite lor_disjoint' by (change (2 ^ 8) with 256; change (2 ^ 16) with 65536; lia).
  change 16777216 with (2 ^ 24).
  rewrite lor_disjoint'
    by (change (2 ^ 8) with 256; change (2 ^ 16) with 65536;
        change (2 ^ 24) with 16777216; lia).
  change (2 ^ 8) with 256; change (2 ^ 16) with 65536;
    change (2 ^ 24) with 16777216. ring.
Qed.

Lemma little_endian4_range b0 b1 b2 b3 :
  is_uint32 (Spec.little_endian [b0; b1; b2; b3]).
Proof.
  pose proof (uint32_of_byte_range b0) as H0.
  pose proof (uint32_of_byte_range b1) as H1.
  pose proof (uint32_of_byte_range b2) as H2.
  pose proof (uint32_of_byte_range b3) as H3.
  unfold is_uint32. rewrite pow2_32. cbn [Spec.little_endian]. lia.
Qed.

Lemma le_word_range b0 b1 b2 b3 : is_uint32 (le_word b0 b1 b2 b3).
Proof. rewrite le_word_little_endian. apply little_endian4_range. Qed.

Lemma shr32_div v n : 0 <= n < 32 -> shr32 v n = v / 2 ^ n.
Proof.
  intros Hn. unfold shr32. destruct (Z.leb_spec 32 n); [lia|].
  apply Z.shiftr_div_pow2. lia.
Qed.

(** The four bytes [putUint32] stores are the four bytes of the
    specification's packing. *)
Lemma put_bytes v :
  [byte_of_uint32 v; byte_of_uint32 (shr32 v 8);
   byte_of_uint32 (shr32 v 16); byte_of_uint32 (shr32 v 24)] = Spec.u32_bytes v.
Proof.
  unfold Spec.u32_bytes. cbn [map].
  rewrite !shr32_div by lia.
  change (256 ^ 0) with 1. rewrite Z.div_1_r. reflexivity.
Qed.

Lemma byte_of_uint32_eq z b : z mod 256 = uint32_of_byte b -> byte_of_uint32 z = b.
Proof.
  intros E. rewrite <- byte_of_uint32_mod, E. apply byte_of_uint32_of_byte.
Qed.

Lemma u32_bytes_little_endian b0 b1 b2 b3 :
  Spec.u32_bytes (Spec.little_endian [b0; b1; b2; b3]) = [b0; b1; b2; b3].
Proof.
  pose proof (uint32_of_byte_range b0) as H0.
  pose proof (uint32_of_byte_range b1) as H1.
  pose proof (uint32_of_byte_range b2) as H2.
  pose proof (uint32_of_byte_range b3) as H3.
  unfold Spec.u32_bytes. cbn [map Spec.little_endian].
  change (256 ^ 0) with 1. change (256 ^ 1) with 256.
  change (256 ^ 2) with 65536. change (256 ^ 3) with 16777216.
  repeat match goal with
         | |- _ :: _ = _ :: _ => f_equal
         end;
    apply byte_of_uint32_eq; Z.div_mod_to_equations; lia.
Qed.

Lemma little_endian_u32_bytes v :
  is_uint32 v -> Spec.little_endian (Spec.u32_bytes v) = v.
Proof.
  unfold is_uint32. rewrite pow2_32. intros Hv.
  unfold Spec.u32_bytes. cbn [map Spec.little_endian].
  rewrite !uint32_of_byte_of_uint32.
  change (256 ^ 0) with 1. change (256 ^ 1) with 256.
  change (256 ^ 2) with 65536. change (256 ^ 3) with 16777216.
  Z.div_mod_to_equations. lia.
Qed.

(** ** Running the block transforms *)

Lemma Rc5_Encrypt_run c dst src m :
  (8 <= len src)%nat -> (8 <= len dst)%nat ->
  Rc5.Encrypt c dst src m =
  (Some tt, enc_store c m dst src).
Proof.
  intros Hs Hd. unfold enc_store. cbv zeta. long_slice src Hs. long_slice dst Hd.
  unfold Rc5.Encrypt, enc_words, word_at.
  destruct (Rc5.encRounds _ _ _ _ _) as [A B] eqn:E.
  cbv [Rc5.getUint32 Rc5.putUint32 bind index store slice_from ret panic
       len off spare Nat.ltb Nat.leb Nat.sub].
  rewrite E. reflexivity.
Qed.

Lemma Rc5_Decrypt_run c dst src m :
  (8 <= len src)%nat -> (8 <= len dst)%nat ->
  Rc5.Decrypt c dst src m =
  (Some tt, dec_store c m dst src).
Proof.
  intros Hs Hd. unfold dec_store. cbv zeta. long_slice src Hs. long_slice dst Hd.
  unfold Rc5.Decrypt, dec_words, word_at.
  destruct (Rc5.decRounds _ _ _ _ _) as [A B] eqn:E.
  cbv [Rc5.getUint32 Rc5.putUint32 bind index store slice_from ret panic
       len off spare Nat.ltb Nat.leb Nat.sub].
  rewrite E. reflexivity.
Qed.

(** The loops of src/unnamed/part_000 compute what those of src/rc5.go do. *)
Lemma Part000_encRounds a n : forall rks A B kidx,
  Part000.encRounds a n rks A B kidx = Rc5.encRounds n rks A B kidx.
Proof.
  induction n as [|n IH]; intros rks A B kidx; cbn [Part000.encRounds Rc5.encRounds].
  - reflexivity.
  - rewrite !RotateLeft32_pos. apply IH.
Qed.

Lemma Part000_decRounds a n : forall rks A B kidx,
  Part000.decRounds a n rks A B kidx = Rc5.decRounds n rks A B kidx.
Proof.
  induction n as [|n IH]; intros rks A B kidx; cbn [Part000.decRounds Rc5.decRounds].
  - reflexivity.
  - rewrite !RotateLeft32_neg by apply sub32_range. apply IH.
Qed.

Lemma Part000_mix a n : forall rks L A B i j,
  Part000.mix a n rks L A B i j = Rc5.mix n rks L A B i j.
Proof.
  induction n as [|n IH]; intros rks L A B i j; cbn [Part000.mix Rc5.mix].
  - reflexivity.
  - rewrite RotateLeft32_3, RotateLeft32_pos. apply IH.
Qed.

Lemma Part000_Encrypt_run a c dst src m :
  (8 <= len src)%nat -> (8 <= len dst)%nat ->
  Part000.Encrypt a c dst src m =
  (Some tt, enc_store c m dst src).
Proof.
  intros Hs Hd. unfold enc_store. cbv zeta. long_slice src Hs. long_slice dst Hd.
  unfold Part000.Encrypt, enc_words, word_at.
  cbv [binary.LittleEndian.Uint32 binary.LittleEndian.PutUint32 bind index
       store slice_to slice_range ret panic cap len off spare].
  cbn [Nat.add Nat.sub Nat.leb Nat.ltb andb].
  rewrite Part000_encRounds.
  destruct (Rc5.encRounds _ _ _ _ _) as [A B] eqn:E.
  reflexivity.
Qed.

Lemma Part000_Decrypt_run a c dst src m :
  (8 <= len src)%nat -> (8 <= len dst)%nat ->
  Part000.Decrypt a c dst src m =
  (Some tt, dec_store c m dst src).
Proof.
  intros Hs Hd. unfold dec_store. cbv zeta. long_slice src Hs. long_slice dst Hd.
  unfold Part000.Decrypt, dec_words, word_at.
  cbv [binary.LittleEndian.Uint32 binary.LittleEndian.PutUint32 bind index
       store slice_to slice_range ret panic cap len off spare].
  cbn [Nat.add Nat.sub Nat.leb Nat.ltb andb].
  rewrite Part000_decRounds.
  destruct (Rc5.decRounds _ _ _ _ _) as [A B] eqn:E.
  reflexivity.
Qed.

(** ** Running [New] *)

Lemma copy_skeytable : copy (repeat 0 roundKeys) skeytable = skeytable.
Proof. reflexivity. Qed.

Lemma Rc5_New_short key m :
  len key <> 16%nat ->
  Rc5.New key m = (Some (inl (KeySizeError (Z.of_nat (len key)))), m).
Proof.
  intros H. unfold Rc5.New. cbv zeta.
  destruct (Nat.eqb_spec (len key) 16) as [E | _]; [contradiction|].
  reflexivity.
Qed.

Lemma Rc5_New_run key m :
  len key = 16%nat ->
  Rc5.New key m = (Some (inr (mkCipher (schedule_of (key_at m (off key))))), m).
Proof.
  destruct key as [o l s]. cbn [len off]. intros ->.
  unfold Rc5.New, schedule_of, key_at, word_at. cbv zeta.
  rewrite copy_skeytable.
  cbn [len Nat.eqb negb]. unfold keyWords at 1 2. cbn [Rc5.loadKey repeat].
  cbv [Rc5.getUint32 bind index slice_from ret panic len off spare].
  cbn [Nat.sub Nat.leb Nat.ltb update].
  reflexivity.
Qed.

Lemma Part000_New_short a key m :
  len key <> 16%nat ->
  Part000.New a key m = (Some (inl (KeySizeError (Z.of_nat (len key)))), m).
Proof.
  intros H. unfold Part000.New. cbv zeta.
  destruct (Nat.eqb_spec (len key) 16) as [E | _]; [contradiction|].
  reflexivity.
Qed.

Lemma Part000_New_run a key m :
  len key = 16%nat ->
  Part000.New a key m = (Some (inr (mkCipher (schedule_of (key_at m (off key))))), m).
Proof.
  destruct key as [o l s]. cbn [len off]. intros ->.
  unfold Part000.New, schedule_of, key_at, word_at. cbv zeta.
  rewrite copy_skeytable.
  cbn [len Nat.eqb negb]. unfold keyWords at 1 2. cbn [Part000.loadKey repeat].
  cbv [binary.LittleEndian.Uint32 bind index slice_from slice_to ret panic
       cap len off spare].
  cbn [Nat.add Nat.sub Nat.leb Nat.ltb update].
  rewrite Part000_mix. reflexivity.
Qed.

(** ** Reading the store back *)

Lemma put4_outside m a v x :
  (x < a \/ a + 4 <= x)%nat -> put4 m a v x = m x.
Proof. intros H. upd_cases. reflexivity. Qed.

Lemma bytes_put4 m a v : bytes_at (put4 m a v) a 4 = Spec.u32_bytes v.
Proof.
  rewrite <- put_bytes. unfold bytes_at. cbn [map seq].
  repeat match goal with
         | |- _ :: _ = _ :: _ => f_equal
         end; upd_cases; reflexivity.
Qed.

Lemma map_seq_shift {A} (f : nat -> A) k : forall s n,
  map f (seq (n + s) k) = map (fun i => f (n + i)%nat) (seq s k).
Proof.
  induction k as [|k IH]; intros s n; cbn [seq map].
  - reflexivity.
  - f_equal. rewrite <- IH. do 2 f_equal. lia.
Qed.

Lemma bytes_at_app m a n k :
  bytes_at m a (n + k) = bytes_at m a n ++ bytes_at m (a + n) k.
Proof.
  unfold bytes_at. rewrite seq_app, map_app. f_equal.
  rewrite Nat.add_comm, map_seq_shift.
  apply map_ext. intros i. f_equal. lia.
Qed.

Lemma bytes_at_ext m m' a n :
  (forall x, (a <= x < a + n)%nat -> m' x = m x) ->
  bytes_at m' a n = bytes_at m a n.
Proof.
  intros H. unfold bytes_at. apply map_ext_in. intros i Hi.
  apply in_seq in Hi. apply H. lia.
Qed.

(** After [Encrypt]'s writes (A first) and after [Decrypt]'s (B first) the
    destination holds A then B. *)
Lemma bytes_put_AB m d A B :
  bytes_at (put4 (put4 m d A) (d + 4) B) d 8 = Spec.u32_bytes A ++ Spec.u32_bytes B.
Proof.
  change 8%nat with (4 + 4)%nat. rewrite bytes_at_app. f_equal.
  - rewrite <- (bytes_put4 m d A). apply bytes_at_ext.
    intros x Hx. apply put4_outside. lia.
  - apply bytes_put4.
Qed.

Lemma bytes_put_BA m d A B :
  bytes_at (put4 (put4 m (d + 4) B) d A) d 8 = Spec.u32_bytes A ++ Spec.u32_bytes B.
Proof.
  change 8%nat with (4 + 4)%nat. rewrite bytes_at_app. f_equal.
  - apply bytes_put4.
  - rewrite <- (bytes_put4 m (d + 4) B). apply bytes_at_ext.
    intros x Hx. apply put4_outside. lia.
Qed.

Lemma word_at_little_endian m a :
  word_at m a = Spec.little_endian (bytes_at m a 4).
Proof. unfold word_at. apply le_word_little_endian. Qed.

Lemma word_at_range m a : is_uint32 (word_at m a).
Proof. apply le_word_range. Qed.

Lemma word_at_lo m a :
  word_at m a = Spec.little_endian_u32 (bytes_at m a 8).
Proof. apply word_at_little_endian. Qed.

Lemma word_at_hi m a :
  word_at m (a + 4) = Spec.little_endian_u32 (skipn 4 (bytes_at m a 8)).
Proof.
  rewrite word_at_little_endian.
  change 8%nat with (4 + 4)%nat. rewrite bytes_at_app.
  rewrite skipn_app.
  replace (length (bytes_at m a 4)) with 4%nat by (unfold bytes_at; rewrite length_map, length_seq; reflexivity).
  reflexivity.
Qed.

(** ** The round loops and the specification's folds *)

Lemma rotl32_masked x s :
  is_uint32 x -> Rc5.rotl32 x (Z.land s 31) = Spec.rotate_left_32 x (s mod 32).
Proof.
  intros Hx. pose proof (land31_range s).
  rewrite rotl32_circular by (auto; lia). rewrite land31. reflexivity.
Qed.

Lemma rotr32_masked x s :
  is_uint32 x -> Rc5.rotr32 x (Z.land s 31) = Spec.rotate_right_32 x (s mod 32).
Proof.
  intros Hx. pose proof (land31_range s).
  rewrite rotr32_circular by (auto; lia). rewrite land31. reflexivity.
Qed.

Lemma encrypt_round_range rks p r :
  pair_uint32 (Spec.encrypt_round rks p r).
Proof.
  destruct p as [A B]. unfold Spec.encrypt_round, pair_uint32. cbn [fst snd].
  split; apply wrap32_range.
Qed.

Lemma decrypt_round_range rks p r :
  pair_uint32 p -> pair_uint32 (Spec.decrypt_round rks p r).
Proof.
  destruct p as [A B]. unfold Spec.decrypt_round, pair_uint32. cbn [fst snd].
  intros [HA HB].
  assert (HB' : is_uint32 (Z.lxor (Spec.rotate_right_32 ((B - nth (2 * r + 1) rks 0) mod 2 ^ 32) (A mod 32)) A)).
  { apply lxor_range; [apply rotate_right_32_range, wrap32_range | exact HA]. }
  split; [|exact HB'].
  apply lxor_range; [apply rotate_right_32_range, wrap32_range | exact HB'].
Qed.

Lemma encRounds_fold n : forall rks A B r,
  is_uint32 A -> is_uint32 B ->
  Rc5.encRounds n rks A B (2 * r) =
  fold_left (Spec.encrypt_round rks) (seq r n) (A, B).
Proof.
  induction n as [|n IH]; intros rks A B r HA HB.
  - reflexivity.
  - cbn [Rc5.encRounds seq fold_left].
    replace (2 * r + 2)%nat with (2 * S r)%nat by lia.
    rewrite IH by apply add32_range.
    f_equal. unfold Spec.encrypt_round, add32, wrap32.
    rewrite rotl32_masked by (apply lxor_range; assumption).
    rewrite rotl32_masked by (apply lxor_range; [assumption | apply wrap32_range]).
    reflexivity.
Qed.

Lemma decRounds_fold n : forall rks A B r,
  is_uint32 A -> is_uint32 B ->
  Rc5.decRounds n rks A B (2 * (r + n) - 2) =
  fold_left (Spec.decrypt_round rks) (rev (seq r n)) (A, B).
Proof.
  induction n as [|n IH]; intros rks A B r HA HB.
  - reflexivity.
  - rewrite seq_S, rev_app_distr. cbn [rev app fold_left Rc5.decRounds].
    replace (2 * (r + S n) - 2)%nat with (2 * (r + n))%nat by lia.
    pose proof (decrypt_round_range rks (A, B) (r + n) (conj HA HB)) as HR.
    unfold Spec.decrypt_round, pair_uint32 in HR. cbn [fst snd] in HR.
    destruct HR as [HA' HB'].
    unfold sub32, wrap32.
    rewrite !rotr32_masked by apply wrap32_range.
    rewrite IH by assumption. reflexivity.
Qed.

(** One decryption round undoes the encryption round of the same number. *)
Lemma decrypt_encrypt_round rks p r :
  pair_uint32 p ->
  Spec.decrypt_round rks (Spec.encrypt_round rks p r) r = p.
Proof.
  destruct p as [A B]. intros [HA HB]. cbn [fst snd] in HA, HB.
  unfold Spec.encrypt_round, Spec.decrypt_round.
  set (k0 := nth (2 * r) rks 0). set (k1 := nth (2 * r + 1) rks 0).
  set (A' := (Spec.rotate_left_32 (Z.lxor A B) (B mod 32) + k0) mod 2 ^ 32).
  assert (HA' : is_uint32 A') by apply wrap32_range.
  assert (E1 : ((Spec.rotate_left_32 (Z.lxor B A') (A' mod 32) + k1) mod 2 ^ 32 - k1)
               mod 2 ^ 32 = Spec.rotate_left_32 (Z.lxor B A') (A' mod 32)).
  { apply (sub32_add32 _ k1). apply rotate_left_32_range, lxor_range; assumption. }
  rewrite E1.
  rewrite rotate_right_left by (apply lxor_range; assumption).
  rewrite Z.lxor_assoc, Z.lxor_nilpotent, Z.lxor_0_r.
  assert (E0 : (A' - k0) mod 2 ^ 32 = Spec.rotate_left_32 (Z.lxor A B) (B mod 32)).
  { apply (sub32_add32 _ k0). apply rotate_left_32_range, lxor_range; assumption. }
  rewrite E0.
  rewrite rotate_right_left by (apply lxor_range; assumption).
  rewrite Z.lxor_assoc, Z.lxor_nilpotent, Z.lxor_0_r.
  reflexivity.
Qed.

Lemma fold_encrypt_range rks l : forall p,
  pair_uint32 p -> pair_uint32 (fold_left (Spec.encrypt_round rks) l p).
Proof.
  induction l as [|r l IH]; intros p Hp; cbn [fold_left].
  - exact Hp.
  - apply IH, encrypt_round_range.
Qed.

Lemma fold_decrypt_range rks l : forall p,
  pair_uint32 p -> pair_uint32 (fold_left (Spec.decrypt_round rks) l p).
Proof.
  induction l as [|r l IH]; intros p Hp; cbn [fold_left].
  - exact Hp.
  - apply IH, decrypt_round_range, Hp.
Qed.

Lemma fold_decrypt_encrypt rks l : forall p,
  pair_uint32 p ->
  fold_left (Spec.decrypt_round rks) (rev l)
            (fold_left (Spec.encrypt_round rks) l p) = p.
Proof.
  induction l as [|r l IH]; intros p Hp.
  - reflexivity.
  - cbn [rev fold_left]. rewrite fold_left_app. cbn [fold_left].
    rewrite IH by apply encrypt_round_range.
    apply decrypt_encrypt_round, Hp.
Qed.

Lemma enc_words_spec rks x y :
  enc_words rks x y =
  fold_left (Spec.encrypt_round rks) (seq 1 12)
            ((x + nth 0 rks 0) mod 2 ^ 32, (y + nth 1 rks 0) mod 2 ^ 32).
Proof.
  unfold enc_words. change 2%nat with (2 * 1)%nat.
  apply encRounds_fold; apply add32_range.
Qed.

Lemma dec_words_spec rks x y :
  is_uint32 x -> is_uint32 y ->
  dec_words rks x y =
  let '(A, B) := fold_left (Spec.decrypt_round rks) (rev (seq 1 12)) (x, y) in
  ((A - nth 0 rks 0) mod 2 ^ 32, (B - nth 1 rks 0) mod 2 ^ 32).
Proof.
  intros Hx Hy. unfold dec_words.
  change (2 * rounds)%nat with (2 * (1 + 12) - 2)%nat.
  change rounds with 12%nat.
  rewrite decRounds_fold by assumption. reflexivity.
Qed.

(** ** Key expansion *)

Lemma length_update l : forall i v, length (update l i v) = length l.
Proof.
  induction l as [|h t IH]; intros [|i] v; cbn [update length]; auto.
Qed.

Lemma nth_update_same l : forall i v,
  (i < length l)%nat -> nth i (update l i v) 0 = v.
Proof.
  induction l as [|h t IH]; intros [|i] v H; cbn [update nth length] in *;
    try lia; auto.
  apply IH. lia.
Qed.

Lemma add32_add32 x A B : add32 x (add32 A B) = (x + A + B) mod 2 ^ 32.
Proof.
  unfold add32, wrap32. rewrite Z.add_mod_idemp_r by (rewrite pow2_32; lia).
  f_equal. ring.
Qed.

Lemma wrap32_mod32 z : wrap32 z mod 32 = z mod 32.
Proof.
  unfold wrap32. rewrite pow2_32. Z.div_mod_to_equations. lia.
Qed.

Lemma MagicTable_skeytable : Spec.MagicTable = skeytable.
Proof. vm_compute. reflexivity. Qed.

(** One turn of the mixing loop is one step of the specification. *)
Lemma mix_step n rks L A B i j :
  length rks = 26%nat -> length L = 4%nat -> (i < 26)%nat -> (j < 4)%nat ->
  Rc5.mix (S n) rks L A B i j =
  let e := Spec.expand_step (Spec.mkExp rks L A B i j) in
  Rc5.mix n (Spec.eS e) (Spec.eL e) (Spec.eA e) (Spec.eB e) (Spec.ei e) (Spec.ej e).
Proof.
  intros HS HL Hi Hj. cbn [Rc5.mix]. unfold Spec.expand_step.
  cbn [Spec.eS Spec.eL Spec.eA Spec.eB Spec.ei Spec.ej]. cbv zeta.
  rewrite add32_add32.
  rewrite (rotl32_circular _ 3) by (try apply wrap32_range; lia).
  rewrite nth_update_same by lia.
  set (Si := Spec.rotate_left_32 ((nth i rks 0 + A + B) mod 2 ^ 32) 3).
  rewrite add32_add32.
  rewrite rotl32_masked by apply wrap32_range.
  unfold add32. rewrite !wrap32_mod32.
  rewrite nth_update_same by lia.
  reflexivity.
Qed.

Lemma mix_iter n : forall e,
  length (Spec.eS e) = 26%nat -> length (Spec.eL e) = 4%nat ->
  (Spec.ei e < 26)%nat -> (Spec.ej e < 4)%nat ->
  Rc5.mix n (Spec.eS e) (Spec.eL e) (Spec.eA e) (Spec.eB e) (Spec.ei e) (Spec.ej e)
  = Spec.eS (Nat.iter n Spec.expand_step e).
Proof.
  induction n as [|n IH]; intros e HS HL Hi Hj.
  - reflexivity.
  - rewrite Nat.iter_succ_r, mix_step by assumption. cbv zeta.
    destruct e as [rks L A B i j]. cbn [Spec.eS Spec.eL Spec.eA Spec.eB Spec.ei Spec.ej] in *.
    apply IH; unfold Spec.expand_step;
      cbn [Spec.eS Spec.eL Spec.eA Spec.eB Spec.ei Spec.ej];
      rewrite ?length_update; try assumption;
      apply Nat.mod_upper_bound; lia.
Qed.

Lemma key_at_key_words m o : key_at m o = Spec.key_words (bytes_at m o 16).
Proof.
  unfold key_at, Spec.key_words, Spec.little_endian_u32, bytes_at.
  cbn [seq map Nat.mul Nat.add skipn firstn].
  unfold word_at. rewrite !le_word_little_endian.
  rewrite <- !Nat.add_assoc. cbn [Nat.add]. reflexivity.
Qed.

Lemma schedule_of_expand m o :
  schedule_of (key_at m o) = Spec.expand (bytes_at m o 16).
Proof.
  unfold schedule_of, Spec.expand. rewrite <- key_at_key_words, MagicTable_skeytable.
  change (3 * roundKeys)%nat with (3 * 26)%nat.
  apply (mix_iter (3 * 26) (Spec.mkExp skeytable (key_at m o) 0 0 0 0));
    cbn [Spec.eS Spec.eL Spec.ei Spec.ej]; try reflexivity; lia.
Qed.

Lemma length_mix n : forall rks L A B i j,
  length (Rc5.mix n rks L A B i j) = length rks.
Proof.
  induction n as [|n IH]; intros; cbn [Rc5.mix].
  - reflexivity.
  - rewrite IH. apply length_update.
Qed.

Lemma length_schedule_of L : length (schedule_of L) = roundKeys.
Proof. unfold schedule_of. rewrite length_mix. reflexivity. Qed.

(** ** Blocks of eight bytes *)

Lemma length_bytes_at m a n : length (bytes_at m a n) = n.
Proof. unfold bytes_at. rewrite length_map, length_seq. reflexivity. Qed.

Lemma contents_8 m b : len b = 8%nat -> contents m b = bytes_at m (off b) 8.
Proof. unfold contents. intros ->. reflexivity. Qed.

Lemma enc_store_bytes c m dst src :
  bytes_at (enc_store c m dst src) (off dst) 8 =
  Spec.encrypt (rk c) (bytes_at m (off src) 8).
Proof.
  unfold enc_store. cbv zeta. rewrite bytes_put_AB.
  unfold Spec.encrypt. rewrite <- word_at_lo, <- word_at_hi, <- enc_words_spec.
  destruct (enc_words _ _ _). reflexivity.
Qed.

Lemma dec_store_bytes c m dst src :
  bytes_at (dec_store c m dst src) (off dst) 8 =
  Spec.decrypt (rk c) (bytes_at m (off src) 8).
Proof.
  unfold dec_store. cbv zeta. rewrite bytes_put_BA.
  rewrite dec_words_spec by apply word_at_range.
  unfold Spec.decrypt. rewrite <- word_at_lo, <- word_at_hi.
  destruct (fold_left _ _ _). reflexivity.
Qed.

Lemma enc_store_frame c m dst src x :
  (x < off dst \/ off dst + 8 <= x)%nat -> enc_store c m dst src x = m x.
Proof.
  intros H. unfold enc_store. cbv zeta.
  rewrite !put4_outside by lia. reflexivity.
Qed.

Lemma dec_store_frame c m dst src x :
  (x < off dst \/ off dst + 8 <= x)%nat -> dec_store c m dst src x = m x.
Proof.
  intros H. unfold dec_store. cbv zeta.
  rewrite !put4_outside by lia. reflexivity.
Qed.

Lemma little_endian_u32_lo A l :
  is_uint32 A -> Spec.little_endian_u32 (Spec.u32_bytes A ++ l) = A.
Proof.
  intros HA. rewrite <- (little_endian_u32_bytes A HA) at 2. reflexivity.
Qed.

Lemma little_endian_u32_hi A B :
  is_uint32 B ->
  Spec.little_endian_u32 (skipn 4 (Spec.u32_bytes A ++ Spec.u32_bytes B)) = B.
Proof.
  intros HB. rewrite <- (little_endian_u32_bytes B HB) at 2. reflexivity.
Qed.

(** The specification's decryption undoes its encryption on every 8-byte
    block, whatever the schedule. *)
Lemma spec_decrypt_encrypt S p :
  length p = 8%nat -> Spec.decrypt S (Spec.encrypt S p) = p.
Proof.
  intros Hp.
  do 8 (destruct p as [|? p]; [discriminate Hp|]).
  destruct p; [clear Hp | discriminate Hp].
  unfold Spec.encrypt.
  set (x := Spec.little_endian_u32 _). set (y := Spec.little_endian_u32 _).
  set (p0 := ((x + nth 0 S 0) mod 2 ^ 32, (y + nth 1 S 0) mod 2 ^ 32)).
  assert (H0 : pair_uint32 p0) by (split; apply wrap32_range).
  pose proof (fold_encrypt_range S (seq 1 12) p0 H0) as HR.
  pose proof (fold_decrypt_encrypt S (seq 1 12) p0 H0) as HI.
  destruct (fold_left (Spec.encrypt_round S) (seq 1 12) p0) as [A B].
  destruct HR as [HA HB]. cbn [fst snd] in HA, HB.
  unfold Spec.decrypt.
  rewrite little_endian_u32_lo, little_endian_u32_hi by assumption.
  rewrite HI. unfold p0.
  change (((x + nth 0 S 0) mod 2 ^ 32 - nth 0 S 0) mod 2 ^ 32)
    with (sub32 (add32 x (nth 0 S 0)) (nth 0 S 0)).
  change (((y + nth 1 S 0) mod 2 ^ 32 - nth 1 S 0) mod 2 ^ 32)
    with (sub32 (add32 y (nth 1 S 0)) (nth 1 S 0)).
  rewrite !sub32_add32 by apply little_endian4_range.
  unfold x, y, Spec.little_endian_u32. cbn [firstn skipn].
  rewrite !u32_bytes_little_endian. reflexivity.
Qed.

(** ** What the rotations do to the bits *)

Lemma rotate_left_32_bits k s n :
  is_uint32 k -> 0 <= n < 32 ->
  Z.testbit (Spec.rotate_left_32 k s) n = Z.testbit k ((n - s) mod 32).
Proof.
  intros Hk Hn.
  destruct (rotate_amount_mod k s) as [<- _].
  assert (Hs : 0 <= s mod 32 < 32) by (apply Z.mod_pos_bound; lia).
  assert (E : (n - s) mod 32 = (n - s mod 32) mod 32)
    by (Z.div_mod_to_equations; lia).
  rewrite E. clear E. set (r := s mod 32) in *.
  rewrite rotate_left_32_form by assumption.
  rewrite <- lor_disjoint by (try apply high_part_bound; auto; lia).
  rewrite Z.lor_spec, Z.mul_pow2_bits, Z.div_pow2_bits by lia.
  destruct (Z_lt_le_dec n r) as [Hlt | Hge].
  - rewrite (Z.testbit_neg_r _ (n - r)) by lia. cbn [orb].
    f_equal. Z.div_mod_to_equations. lia.
  - rewrite Z.mod_pow2_bits_low by lia.
    rewrite (testbit_high_false 32 k (n + (32 - r))) by (auto; lia).
    rewrite orb_false_r. f_equal. Z.div_mod_to_equations. lia.
Qed.

Lemma rotate_right_32_bits k s n :
  is_uint32 k -> 0 <= n < 32 ->
  Z.testbit (Spec.rotate_right_32 k s) n = Z.testbit k ((n + s) mod 32).
Proof.
  intros Hk Hn.
  rewrite <- (rotate_left_neg k s Hk).
  rewrite rotate_left_32_bits by assumption.
  f_equal. Z.div_mod_to_equations. lia.
Qed.

(** * The claims *)

(** C1.  For every 16-byte key and every 8-byte block, in both source files:
    [New] returns a cipher, [Encrypt] of the block into an 8-byte buffer and
    [Decrypt] of that buffer into an 8-byte buffer both return, and the last
    buffer holds exactly the bytes the block held.  The buffers may overlap
    or coincide. *)
Theorem round_trip (a : arch) (m : mem) (key src dst out : slice) :
  len key = 16%nat -> len src = 8%nat -> len dst = 8%nat -> len out = 8%nat ->
  round_trips Rc5.New Rc5.Encrypt Rc5.Decrypt m key src dst out /\
  round_trips (Part000.New a) (Part000.Encrypt a) (Part000.Decrypt a)
              m key src dst out.
Proof.
  intros Hk Hs Hd Ho.
  set (c := mkCipher (schedule_of (key_at m (off key)))).
  assert (R : contents (dec_store c (enc_store c m dst src) out dst) out
              = contents m src).
  { rewrite !contents_8 by assumption.
    rewrite dec_store_bytes, enc_store_bytes.
    apply spec_decrypt_encrypt, length_bytes_at. }
  split; exists c, (enc_store c m dst src),
                (dec_store c (enc_store c m dst src) out dst).
  - rewrite Rc5_New_run, Rc5_Encrypt_run, Rc5_Decrypt_run by lia. auto.
  - rewrite Part000_New_run, Part000_Encrypt_run, Part000_Decrypt_run by lia. auto.
Qed.

Lemma round_trip_witness :
  round_trips Rc5.New Rc5.Encrypt Rc5.Decrypt zero_store key0 src0 dst0 out0 /\
  round_trips (Part000.New Arch64) (Part000.Encrypt Arch64) (Part000.Decrypt Arch64)
              zero_store key0 src0 dst0 out0.
Proof. apply (round_trip Arch64 zero_store key0 src0 dst0 out0); reflexivity. Defined.

(** C2.  [Encrypt], in both source files, leaves in an 8-byte destination
    exactly what section 4.3 of the specification computes from the schedule
    and the 8-byte source: the two little-endian words plus [schedule[0]] and
    [schedule[1]], twelve rounds of
    [A = rotate_left_32(A xor B, B mod 32) + schedule[2r]] then
    [B = rotate_left_32(B xor A, A mod 32) + schedule[2r+1]] with the new [A],
    and [A] then [B] written little-endian. *)
Theorem Encrypt_computes_spec (a : arch) (c : rc5cipher) (m : mem) (dst src : slice) :
  len src = 8%nat -> len dst = 8%nat ->
  computes Rc5.Encrypt Spec.encrypt c m dst src /\
  computes (Part000.Encrypt a) Spec.encrypt c m dst src.
Proof.
  intros Hs Hd.
  split; exists (enc_store c m dst src);
    (split; [ | rewrite !contents_8 by assumption; apply enc_store_bytes]).
  - apply Rc5_Encrypt_run; lia.
  - apply Part000_Encrypt_run; lia.
Qed.

Lemma Encrypt_computes_spec_witness :
  computes Rc5.Encrypt Spec.encrypt c0 zero_store dst0 src0 /\
  computes (Part000.Encrypt Arch32) Spec.encrypt c0 zero_store dst0 src0.
Proof. apply (Encrypt_computes_spec Arch32 c0 zero_store dst0 src0); reflexivity. Defined.

(** C3.  [Decrypt], in both source files, leaves in an 8-byte destination
    exactly what section 4.4 of the specification computes: the two
    little-endian words of the source, rounds 12 down to 1 of
    [B = rotate_right_32(B - schedule[2r+1], A mod 32) xor A] then
    [A = rotate_right_32(A - schedule[2r], B mod 32) xor B], then
    [B - schedule[1]] and [A - schedule[0]], [A] then [B] little-endian. *)
Theorem Decrypt_computes_spec (a : arch) (c : rc5cipher) (m : mem) (dst src : slice) :
  len src = 8%nat -> len dst = 8%nat ->
  computes Rc5.Decrypt Spec.decrypt c m dst src /\
  computes (Part000.Decrypt a) Spec.decrypt c m dst src.
Proof.
  intros Hs Hd.
  split; exists (dec_store c m dst src);
    (split; [ | rewrite !contents_8 by assumption; apply dec_store_bytes]).
  - apply Rc5_Decrypt_run; lia.
  - apply Part000_Decrypt_run; lia.
Qed.

Lemma Decrypt_computes_spec_witness :
  computes Rc5.Decrypt Spec.decrypt c0 zero_store dst0 src0 /\
  computes (Part000.Decrypt Arch32) Spec.decrypt c0 zero_store dst0 src0.
Proof. apply (Decrypt_computes_spec Arch32 c0 zero_store dst0 src0); reflexivity. Defined.

(** C4.  For every 16-byte key, [New] in both source files returns, without
    touching the store, the cipher whose 26-word schedule is the one section
    4.2 of the specification derives: four little-endian key words, the magic
    table, [A = B = 0], [i = j = 0], and 78 turns of the mixing step. *)
Theorem New_expands_key (a : arch) (m : mem) (key : slice) :
  len key = 16%nat ->
  Rc5.New key m = (Some (inr (mkCipher (Spec.expand (contents m key)))), m) /\
  Part000.New a key m = (Some (inr (mkCipher (Spec.expand (contents m key)))), m) /\
  length (Spec.expand (contents m key)) = 26%nat.
Proof.
  intros Hk.
  assert (E : Spec.expand (contents m key) = schedule_of (key_at m (off key))).
  { unfold contents. rewrite Hk. symmetry. apply schedule_of_expand. }
  rewrite E. split; [ | split].
  - apply Rc5_New_run, Hk.
  - apply Part000_New_run, Hk.
  - apply length_schedule_of.
Qed.

Lemma New_expands_key_witness :
  Rc5.New key0 zero_store =
    (Some (inr (mkCipher (Spec.expand (contents zero_store key0)))), zero_store) /\
  Part000.New Arch64 key0 zero_store =
    (Some (inr (mkCipher (Spec.expand (contents zero_store key0)))), zero_store) /\
  length (Spec.expand (contents zero_store key0)) = 26%nat.
Proof. apply (New_expands_key Arch64 zero_store key0); reflexivity. Defined.

(** C5.  [skeytable] has exactly 26 words, each a [uint32]; word 0 is
    [0xb7e15163] and, for every [i] from 1 to 25, word [i] is word [i-1] plus
    [0x9e3779b9] modulo 2^32. *)
Theorem skeytable_recurrence :
  length skeytable = 26%nat /\
  Forall is_uint32 skeytable /\
  nth 0 skeytable 0 = 0xb7e15163 /\
  forall i, (1 <= i <= 25)%nat ->
    nth i skeytable 0 = (nth (i - 1) skeytable 0 + 0x9e3779b9) mod 2 ^ 32.
Proof.
  split; [reflexivity | split; [ | split; [reflexivity|]]].
  - unfold skeytable, is_uint32. rewrite pow2_32.
    repeat (constructor; [lia|]). constructor.
  - intros i Hi.
    do 26 (destruct i as [|i]; [try (exfalso; lia); vm_compute; reflexivity|]).
    exfalso; lia.
Qed.

Lemma skeytable_recurrence_witness :
  nth 25 skeytable 0 = (nth (25 - 1) skeytable 0 + 0x9e3779b9) mod 2 ^ 32.
Proof.
  apply (proj2 (proj2 (proj2 skeytable_recurrence)) 25%nat). lia.
Defined.

(** C6.  [New], in both source files, returns the error [KeySizeError] of the
    key's length and no cipher exactly when that length is not 16; for a key
    of 16 bytes it returns a cipher and no error.  It never panics and never
    writes to the store. *)
Theorem New_key_size (a : arch) (m : mem) (key : slice) :
  (len key <> 16%nat ->
     Rc5.New key m = (Some (inl (KeySizeError (Z.of_nat (len key)))), m) /\
     Part000.New a key m = (Some (inl (KeySizeError (Z.of_nat (len key)))), m)) /\
  (len key = 16%nat ->
     (exists c, Rc5.New key m = (Some (inr c), m)) /\
     (exists c, Part000.New a key m = (Some (inr c), m))) /\
  ((exists e, Rc5.New key m = (Some (inl e), m)) <-> len key <> 16%nat) /\
  ((exists e, Part000.New a key m = (Some (inl e), m)) <-> len key <> 16%nat).
Proof.
  split; [ | split; [ | split]].
  - intros H. split; [apply Rc5_New_short | apply Part000_New_short]; exact H.
  - intros H. split; eexists; [apply Rc5_New_run | apply Part000_New_run]; exact H.
  - split.
    + intros [e He] H. rewrite Rc5_New_run in He by exact H. discriminate He.
    + intros H. eexists. apply Rc5_New_short, H.
  - split.
    + intros [e He] H. rewrite Part000_New_run in He by exact H. discriminate He.
    + intros H. eexists. apply Part000_New_short, H.
Qed.

Lemma New_key_size_witness :
  (Rc5.New short_key zero_store = (Some (inl (KeySizeError 15)), zero_store) /\
   Part000.New Arch64 short_key zero_store =
     (Some (inl (KeySizeError 15)), zero_store)) /\
  ((exists c, Rc5.New key0 zero_store = (Some (inr c), zero_store)) /\
   (exists c, Part000.New Arch64 key0 zero_store = (Some (inr c), zero_store))).
Proof.
  split.
  - apply (proj1 (New_key_size Arch64 zero_store short_key)). discriminate.
  - apply (proj1 (proj2 (New_key_size Arch64 zero_store key0))). reflexivity.
Defined.

(** C7.  The two source files agree, whichever the width of [int]: [New]
    returns the same result for every key; on buffers of at least eight
    bytes [Encrypt] and [Decrypt] return the same result and leave the same
    store; and the library rotation, called with [int(s)] or with
    [-int(s)], is the masked left or right rotation of src/rc5.go. *)
Theorem variants_agree (a : arch) :
  (forall key m, Part000.New a key m = Rc5.New key m) /\
  (forall c dst src m,
     (8 <= len src)%nat -> (8 <= len dst)%nat ->
     Part000.Encrypt a c dst src m = Rc5.Encrypt c dst src m /\
     Part000.Decrypt a c dst src m = Rc5.Decrypt c dst src m) /\
  (forall x s,
     bits.RotateLeft32 a x (int_of_uint32 a s) = Rc5.rotl32 x (Z.land s 31)) /\
  (forall x s,
     is_uint32 x ->
     bits.RotateLeft32 a x (int_neg a (int_of_uint32 a s)) =
     Rc5.rotr32 x (Z.land s 31)).
Proof.
  split; [ | split; [ | split]].
  - intros key m. destruct (Nat.eq_dec (len key) 16) as [E | NE].
    + rewrite Part000_New_run, Rc5_New_run by exact E. reflexivity.
    + rewrite Part000_New_short, Rc5_New_short by exact NE. reflexivity.
  - intros c dst src m Hs Hd. split.
    + rewrite Part000_Encrypt_run, Rc5_Encrypt_run by assumption. reflexivity.
    + rewrite Part000_Decrypt_run, Rc5_Decrypt_run by assumption. reflexivity.
  - intros x s. apply RotateLeft32_pos.
  - intros x s Hx. apply RotateLeft32_neg, Hx.
Qed.

Lemma variants_agree_witness :
  (Part000.Encrypt Arch32 c0 dst0 src0 zero_store = Rc5.Encrypt c0 dst0 src0 zero_store /\
   Part000.Decrypt Arch32 c0 dst0 src0 zero_store = Rc5.Decrypt c0 dst0 src0 zero_store) /\
  bits.RotateLeft32 Arch32 5 (int_neg Arch32 (int_of_uint32 Arch32 4294967295)) =
  Rc5.rotr32 5 (Z.land 4294967295 31).
Proof.
  split.
  - apply (proj1 (proj2 (variants_agree Arch32)) c0 dst0 src0 zero_store);
      simpl; lia.
  - apply (proj2 (proj2 (proj2 (variants_agree Arch32))) 5 4294967295).
    unfold is_uint32. split; [lia | reflexivity].
Defined.

(** Outside the claim: on a destination shorter than eight bytes whose
    capacity reaches eight, the two files part ways, src/rc5.go panicking on
    [b[2]] of [dst[4:]] where [dst[4:8]] of the other file is in range. *)
Example short_destination :
  fst (Rc5.Encrypt c0 short_dst src0 zero_store) = None /\
  fst (Part000.Encrypt Arch64 c0 short_dst src0 zero_store) = Some tt.
Proof. split; vm_compute; reflexivity. Qed.

(** C8, as stated, fails: [rotl32] and [rotr32] do not reduce their amount
    modulo 32.  Rotating 1 by 33 gives 0, not the circular shift by 1. *)
Lemma rotations_any_amount_counterexample :
  ~ (forall k r, is_uint32 k -> is_uint32 r ->
       Rc5.rotl32 k r = Spec.rotate_left_32 k (r mod 32) /\
       Rc5.rotr32 k r = Spec.rotate_right_32 k (r mod 32)).
Proof.
  intros H.
  assert (H1 : is_uint32 1) by (split; [lia | reflexivity]).
  assert (H33 : is_uint32 33) by (split; [lia | reflexivity]).
  destruct (H 1 33 H1 H33) as [E _].
  vm_compute in E. discriminate E.
Qed.

(** C8, amended.  For every 32-bit word [k] and every amount [r] from 0 to
    32, [rotl32 k r] and [rotr32 k r] are the circular shifts of [k] by
    [r mod 32] bits, bit [n] of the result being bit [(n - r) mod 32],
    respectively [(n + r) mod 32], of [k]; amount 0 returns [k] unchanged;
    and with the amount masked by [& 31], as every data-dependent call does,
    the shift is by the unmasked amount modulo 32. *)
Theorem rotations_up_to_32 (k r : Z) :
  is_uint32 k -> 0 <= r <= 32 ->
  (Rc5.rotl32 k r = Spec.rotate_left_32 k (r mod 32) /\
   Rc5.rotr32 k r = Spec.rotate_right_32 k (r mod 32)) /\
  (forall n, 0 <= n < 32 ->
     Z.testbit (Rc5.rotl32 k r) n = Z.testbit k ((n - r) mod 32) /\
     Z.testbit (Rc5.rotr32 k r) n = Z.testbit k ((n + r) mod 32)) /\
  (is_uint32 (Rc5.rotl32 k r) /\ is_uint32 (Rc5.rotr32 k r)) /\
  (Rc5.rotl32 k 0 = k /\ Rc5.rotr32 k 0 = k) /\
  (forall s, Rc5.rotl32 k (Z.land s 31) = Spec.rotate_left_32 k (s mod 32) /\
             Rc5.rotr32 k (Z.land s 31) = Spec.rotate_right_32 k (s mod 32)).
Proof.
  intros Hk Hr.
  rewrite rotl32_circular, rotr32_circular by assumption.
  split; [ | split; [ | split; [ | split]]].
  - split; symmetry; apply rotate_amount_mod.
  - intros n Hn. split.
    + apply rotate_left_32_bits; assumption.
    + apply rotate_right_32_bits; assumption.
  - split; [apply rotate_left_32_range | apply rotate_right_32_range]; exact Hk.
  - rewrite rotl32_circular, rotr32_circular by (auto; lia).
    unfold Spec.rotate_left_32, Spec.rotate_right_32.
    change (0 mod 32) with 0. change (32 - 0) with 32. change (2 ^ 0) with 1.
    rewrite Z.mul_1_r, Z.div_1_r, Z_mod_mult, Z.mod_small, Z.div_small by exact Hk.
    split; ring.
  - intros s. split; [apply rotl32_masked | apply rotr32_masked]; exact Hk.
Qed.

Lemma rotations_up_to_32_witness :
  Rc5.rotl32 0x80000001 32 = Spec.rotate_left_32 0x80000001 (32 mod 32) /\
  Rc5.rotr32 0x80000001 32 = Spec.rotate_right_32 0x80000001 (32 mod 32).
Proof.
  apply (rotations_up_to_32 0x80000001 32).
  - unfold is_uint32. split; [lia | reflexivity].
  - lia.
Defined.

(** What the code does above 32 (outside the amended claim): nothing of the
    word survives. *)
Lemma rotations_beyond_32 k r :
  32 < r < 2 ^ 32 -> Rc5.rotl32 k r = 0 /\ Rc5.rotr32 k r = 0.
Proof.
  intros Hr. unfold Rc5.rotl32, Rc5.rotr32, shl32, shr32, sub32, wrap32.
  rewrite pow2_32 in *.
  assert (E : (32 - r) mod 4294967296 = 4294967328 - r)
    by (Z.div_mod_to_equations; lia).
  rewrite E.
  destruct (Z.leb_spec 32 r); [ | lia].
  destruct (Z.leb_spec 32 (4294967328 - r)); [ | lia].
  split; reflexivity.
Qed.

(** C9.  [Encrypt] and [Decrypt], in both source files, work in place: on an
    8-byte buffer used as source and destination at once they return, and
    leave in it the bytes that the same call leaves in any other 8-byte
    destination. *)
Theorem in_place_operation (a : arch) (c : rc5cipher) (m : mem) (buf dst : slice) :
  len buf = 8%nat -> len dst = 8%nat ->
  in_place Rc5.Encrypt c m buf dst /\
  in_place Rc5.Decrypt c m buf dst /\
  in_place (Part000.Encrypt a) c m buf dst /\
  in_place (Part000.Decrypt a) c m buf dst.
Proof.
  intros Hb Hd.
  assert (E : contents (enc_store c m buf buf) buf = contents (enc_store c m dst buf) dst)
    by (rewrite !contents_8, !enc_store_bytes by assumption; reflexivity).
  assert (D : contents (dec_store c m buf buf) buf = contents (dec_store c m dst buf) dst)
    by (rewrite !contents_8, !dec_store_bytes by assumption; reflexivity).
  split; [ | split; [ | split]].
  - exists (enc_store c m buf buf), (enc_store c m dst buf).
    rewrite !Rc5_Encrypt_run by lia. auto.
  - exists (dec_store c m buf buf), (dec_store c m dst buf).
    rewrite !Rc5_Decrypt_run by lia. auto.
  - exists (enc_store c m buf buf), (enc_store c m dst buf).
    rewrite !Part000_Encrypt_run by lia. auto.
  - exists (dec_store c m buf buf), (dec_store c m dst buf).
    rewrite !Part000_Decrypt_run by lia. auto.
Qed.

Lemma in_place_operation_witness :
  in_place Rc5.Encrypt c0 zero_store src0 dst0 /\
  in_place Rc5.Decrypt c0 zero_store src0 dst0 /\
  in_place (Part000.Encrypt Arch64) c0 zero_store src0 dst0 /\
  in_place (Part000.Decrypt Arch64) c0 zero_store src0 dst0.
Proof. apply (in_place_operation Arch64 c0 zero_store src0 dst0); reflexivity. Defined.

Lemma first8_enc (T : block_fn) c m dst src :
  (forall n, T c dst src n = (Some tt, enc_store c n dst src)) ->
  first8_only T c m dst src.
Proof.
  intros HT. exists (enc_store c m dst src).
  split; [apply HT | split; [ | split]].
  - intros x Hx. apply enc_store_frame, Hx.
  - intros i Hi. apply enc_store_frame. lia.
  - intros n Hn. exists (enc_store c n dst src). split; [apply HT|].
    rewrite !enc_store_bytes, Hn. reflexivity.
Qed.

Lemma first8_dec (T : block_fn) c m dst src :
  (forall n, T c dst src n = (Some tt, dec_store c n dst src)) ->
  first8_only T c m dst src.
Proof.
  intros HT. exists (dec_store c m dst src).
  split; [apply HT | split; [ | split]].
  - intros x Hx. apply dec_store_frame, Hx.
  - intros i Hi. apply dec_store_frame. lia.
  - intros n Hn. exists (dec_store c n dst src). split; [apply HT|].
    rewrite !dec_store_bytes, Hn. reflexivity.
Qed.

(** C10.  On buffers of eight bytes or more, [Encrypt] and [Decrypt], in
    both source files, return without any length check; they change no byte
    of the store outside the first eight bytes of [dst], so every byte of
    [dst] at index 8 or beyond is unchanged; and the eight bytes they write
    depend on the first eight bytes of [src] only. *)
Theorem longer_buffers (a : arch) (c : rc5cipher) (m : mem) (dst src : slice) :
  (8 <= len src)%nat -> (8 <= len dst)%nat ->
  first8_only Rc5.Encrypt c m dst src /\
  first8_only Rc5.Decrypt c m dst src /\
  first8_only (Part000.Encrypt a) c m dst src /\
  first8_only (Part000.Decrypt a) c m dst src.
Proof.
  intros Hs Hd. split; [ | split; [ | split]].
  - apply first8_enc. intros n. apply Rc5_Encrypt_run; assumption.
  - apply first8_dec. intros n. apply Rc5_Decrypt_run; assumption.
  - apply first8_enc. intros n. apply Part000_Encrypt_run; assumption.
  - apply first8_dec. intros n. apply Part000_Decrypt_run; assumption.
Qed.

Lemma longer_buffers_witness :
  first8_only Rc5.Encrypt c0 zero_store (mkSlice 40 12 4) (mkSlice 16 11 0) /\
  first8_only Rc5.Decrypt c0 zero_store (mkSlice 40 12 4) (mkSlice 16 11 0) /\
  first8_only (Part000.Encrypt Arch64) c0 zero_store (mkSlice 40 12 4) (mkSlice 16 11 0) /\
  first8_only (Part000.Decrypt Arch64) c0 zero_store (mkSlice 40 12 4) (mkSlice 16 11 0).
Proof.
  apply (longer_buffers Arch64 c0 zero_store (mkSlice 40 12 4) (mkSlice 16 11 0));
    simpl; lia.
Defined.

(** * Further properties of the code *)

(** ** [getUint32] and [putUint32] *)

Lemma getUint32_run b m :
  (4 <= len b)%nat -> Rc5.getUint32 b m = (Some (word_at m (off b)), m).
Proof.
  destruct b as [o l s]. cbn [len off]. intros H.
  do 4 (destruct l as [|l]; [exfalso; lia|]). reflexivity.
Qed.

Lemma getUint32_short b m :
  (len b < 4)%nat -> Rc5.getUint32 b m = (None, m).
Proof.
  destruct b as [o l s]. cbn [len]. intros H.
  do 4 (destruct l as [|l]; [reflexivity|]). exfalso; lia.
Qed.

Lemma putUint32_run b v m :
  (4 <= len b)%nat -> Rc5.putUint32 b v m = (Some tt, put4 m (off b) v).
Proof.
  destruct b as [o l s]. cbn [len off]. intros H.
  do 4 (destruct l as [|l]; [exfalso; lia|]). reflexivity.
Qed.

(** X1.  [getUint32] never changes the store; it returns exactly when the
    slice has four bytes or more, and then with the little-endian value of
    the first four, a [uint32]. *)
Theorem getUint32_bounds (b : slice) (m : mem) :
  snd (Rc5.getUint32 b m) = m /\
  (fst (Rc5.getUint32 b m) <> None <-> (4 <= len b)%nat) /\
  (forall v, fst (Rc5.getUint32 b m) = Some v ->
     is_uint32 v /\ v = Spec.little_endian (bytes_at m (off b) 4)).
Proof.
  destruct (le_lt_dec 4 (len b)) as [H | H].
  - rewrite getUint32_run by exact H. cbn [fst snd].
    split; [reflexivity | split].
    + split; [intros _; exact H | discriminate].
    + intros v [= <-]. split; [apply word_at_range | apply word_at_little_endian].
  - rewrite getUint32_short by exact H. cbn [fst snd].
    split; [reflexivity | split].
    + split; [intros N; now elim N | lia].
    + discriminate.
Qed.

(** X2.  Writing a [uint32] with [putUint32] into a slice of four bytes or
    more changes those four bytes only, and [getUint32] reads the value
    back. *)
Theorem putUint32_getUint32 (b : slice) (v : Z) (m : mem) :
  (4 <= len b)%nat -> is_uint32 v ->
  exists m',
    Rc5.putUint32 b v m = (Some tt, m') /\
    Rc5.getUint32 b m' = (Some v, m') /\
    (forall x, (x < off b \/ off b + 4 <= x)%nat -> m' x = m x).
Proof.
  intros Hb Hv. exists (put4 m (off b) v).
  split; [apply putUint32_run, Hb | split].
  - rewrite getUint32_run by exact Hb.
    rewrite word_at_little_endian, bytes_put4, little_endian_u32_bytes by exact Hv.
    reflexivity.
  - intros x Hx. apply put4_outside, Hx.
Qed.

Lemma putUint32_getUint32_witness :
  exists m',
    Rc5.putUint32 src0 0xdeadbeef zero_store = (Some tt, m') /\
    Rc5.getUint32 src0 m' = (Some 0xdeadbeef, m') /\
    (forall x, (x < off src0 \/ off src0 + 4 <= x)%nat -> m' x = zero_store x).
Proof.
  apply (putUint32_getUint32 src0 0xdeadbeef zero_store).
  - simpl. lia.
  - unfold is_uint32. split; [lia | reflexivity].
Defined.

(** X3.  Writing back with [putUint32] the word [getUint32] has read leaves
    every byte of the store as it was. *)
Theorem getUint32_putUint32 (b : slice) (m : mem) :
  (4 <= len b)%nat ->
  exists v m',
    Rc5.getUint32 b m = (Some v, m) /\
    Rc5.putUint32 b v m = (Some tt, m') /\
    same_store m' m.
Proof.
  intros Hb. exists (word_at m (off b)), (put4 m (off b) (word_at m (off b))).
  split; [apply getUint32_run, Hb | split; [apply putUint32_run, Hb|]].
  intros x.
  destruct (le_lt_dec (off b) x) as [Hlo | Hlo];
    [destruct (le_lt_dec (off b + 4) x) as [Hhi | Hhi] | ];
    try (apply put4_outside; lia).
  assert (E : bytes_at (put4 m (off b) (word_at m (off b))) (off b) 4
              = bytes_at m (off b) 4).
  { rewrite bytes_put4, word_at_little_endian.
    unfold bytes_at. cbn [map seq]. apply u32_bytes_little_endian. }
  unfold bytes_at in E. cbn [map seq] in E.
  injection E as E0 E1 E2 E3.
  assert (Hx : x = (off b + 0)%nat \/ x = (off b + 1)%nat \/
               x = (off b + 2)%nat \/ x = (off b + 3)%nat) by lia.
  destruct Hx as [-> | [-> | [-> | ->]]]; assumption.
Qed.

Lemma getUint32_putUint32_witness :
  exists v m',
    Rc5.getUint32 src0 zero_store = (Some v, zero_store) /\
    Rc5.putUint32 src0 v zero_store = (Some tt, m') /\
    same_store m' zero_store.
Proof. apply (getUint32_putUint32 src0 zero_store). simpl. lia. Defined.

(** X4.  On a slice shorter than four bytes [putUint32] panics, but only
    after it has stored the low bytes that fit: the slice then holds the
    first [len b] bytes of the word and the rest of the store is as before. *)
Theorem putUint32_short (b : slice) (v : Z) (m : mem) :
  (len b < 4)%nat ->
  exists m',
    Rc5.putUint32 b v m = (None, m') /\
    contents m' b = firstn (len b) (Spec.u32_bytes v) /\
    (forall x, (x < off b \/ off b + len b <= x)%nat -> m' x = m x).
Proof.
  destruct b as [o l s]. unfold contents. cbn [len off]. intros H.
  rewrite <- put_bytes.
  do 4 (destruct l as [|l];
        [cbv [Rc5.putUint32 bind store len off Nat.ltb Nat.leb];
         eexists; split; [reflexivity | split;
           [unfold bytes_at; cbn [map seq firstn];
            repeat match goal with |- _ :: _ = _ :: _ => f_equal end;
            upd_cases; reflexivity
           |intros x Hx; upd_cases; reflexivity]]|]).
  exfalso; lia.
Qed.

Lemma putUint32_short_witness :
  exists m',
    Rc5.putUint32 (mkSlice 8 3 0) 0xdeadbeef zero_store = (None, m') /\
    contents m' (mkSlice 8 3 0) = firstn 3 (Spec.u32_bytes 0xdeadbeef) /\
    (forall x, (x < 8 \/ 8 + 3 <= x)%nat -> m' x = zero_store x).
Proof. apply (putUint32_short (mkSlice 8 3 0) 0xdeadbeef zero_store). simpl. lia. Defined.

(** ** [rotl32] and [rotr32] *)

Lemma rotate_right_as_left x s :
  is_uint32 x -> Spec.rotate_left_32 x s = Spec.rotate_right_32 x (- s).
Proof.
  intros Hx. rewrite <- (rotate_left_neg x (- s) Hx), Z.opp_involutive.
  reflexivity.
Qed.

Lemma rotate_left_right k s :
  is_uint32 k -> Spec.rotate_left_32 (Spec.rotate_right_32 k s) s = k.
Proof.
  intros Hk.
  rewrite rotate_right_as_left by (apply rotate_right_32_range, Hk).
  rewrite <- (rotate_left_neg k s Hk).
  apply rotate_right_left, Hk.
Qed.

(** X5.  For every amount from 0 to 32 the two rotations undo each other,
    in either order. *)
Theorem rotr32_rotl32_inverse (k r : Z) :
  is_uint32 k -> 0 <= r <= 32 ->
  Rc5.rotr32 (Rc5.rotl32 k r) r = k /\ Rc5.rotl32 (Rc5.rotr32 k r) r = k.
Proof.
  intros Hk Hr.
  rewrite (rotl32_circular k r), (rotr32_circular k r) by assumption.
  rewrite rotr32_circular by (try apply rotate_left_32_range; assumption).
  rewrite rotl32_circular by (try apply rotate_right_32_range; assumption).
  split; [apply rotate_right_left | apply rotate_left_right]; exact Hk.
Qed.

Lemma rotr32_rotl32_inverse_witness :
  Rc5.rotr32 (Rc5.rotl32 0x80000001 7) 7 = 0x80000001 /\
  Rc5.rotl32 (Rc5.rotr32 0x80000001 7) 7 = 0x80000001.
Proof.
  apply (rotr32_rotl32_inverse 0x80000001 7).
  - unfold is_uint32. split; [lia | reflexivity].
  - lia.
Defined.

(** X6.  Rotating left by [r] is rotating right by [32 - r], for every
    amount from 0 to 32. *)
Theorem rotl32_is_rotr32 (k r : Z) :
  is_uint32 k -> 0 <= r <= 32 -> Rc5.rotl32 k r = Rc5.rotr32 k (32 - r).
Proof.
  intros Hk Hr.
  rewrite rotl32_circular, rotr32_circular by (auto; lia).
  rewrite rotate_right_as_left by exact Hk.
  destruct (rotate_amount_mod k (- r)) as [_ <-].
  destruct (rotate_amount_mod k (32 - r)) as [_ <-].
  f_equal. Z.div_mod_to_equations. lia.
Qed.

Lemma rotl32_is_rotr32_witness :
  Rc5.rotl32 0x80000001 7 = Rc5.rotr32 0x80000001 (32 - 7).
Proof.
  apply (rotl32_is_rotr32 0x80000001 7).
  - unfold is_uint32. split; [lia | reflexivity].
  - lia.
Defined.

(** X7.  Neither function reduces its amount: for every amount above 32
    that a [uint32] can hold, both shifts of the Go expression clear the
    word and the result is 0. *)
Theorem rotations_clear_above_32 (k r : Z) :
  32 < r < 2 ^ 32 -> Rc5.rotl32 k r = 0 /\ Rc5.rotr32 k r = 0.
Proof. apply rotations_beyond_32. Qed.

Lemma rotations_clear_above_32_witness :
  Rc5.rotl32 0xffffffff 33 = 0 /\ Rc5.rotr32 0xffffffff 33 = 0.
Proof.
  apply (rotations_clear_above_32 0xffffffff 33).
  split; [lia | reflexivity].
Defined.

(** ** Encrypting what was decrypted *)

Lemma encrypt_decrypt_round rks p r :
  pair_uint32 p ->
  Spec.encrypt_round rks (Spec.decrypt_round rks p r) r = p.
Proof.
  destruct p as [A B]. intros [HA HB]. cbn [fst snd] in HA, HB.
  unfold Spec.encrypt_round, Spec.decrypt_round.
  set (k0 := nth (2 * r) rks 0). set (k1 := nth (2 * r + 1) rks 0).
  set (B1 := Z.lxor (Spec.rotate_right_32 ((B - k1) mod 2 ^ 32) (A mod 32)) A).
  rewrite Z.lxor_assoc, Z.lxor_nilpotent, Z.lxor_0_r.
  rewrite rotate_left_right by apply wrap32_range.
  assert (EA : ((A - k0) mod 2 ^ 32 + k0) mod 2 ^ 32 = A)
    by (apply (add32_sub32 A k0), HA).
  rewrite EA. unfold B1.
  rewrite Z.lxor_assoc, Z.lxor_nilpotent, Z.lxor_0_r.
  rewrite rotate_left_right by apply wrap32_range.
  assert (EB : ((B - k1) mod 2 ^ 32 + k1) mod 2 ^ 32 = B)
    by (apply (add32_sub32 B k1), HB).
  rewrite EB. reflexivity.
Qed.

Lemma fold_encrypt_decrypt rks l : forall p,
  pair_uint32 p ->
  fold_left (Spec.encrypt_round rks) l
            (fold_left (Spec.decrypt_round rks) (rev l) p) = p.
Proof.
  induction l as [|r l IH]; intros p Hp.
  - reflexivity.
  - cbn [rev fold_left]. rewrite fold_left_app. cbn [fold_left].
    rewrite encrypt_decrypt_round by (apply fold_decrypt_range, Hp).
    apply IH, Hp.
Qed.

Lemma spec_encrypt_decrypt S p :
  length p = 8%nat -> Spec.encrypt S (Spec.decrypt S p) = p.
Proof.
  intros Hp.
  do 8 (destruct p as [|? p]; [discriminate Hp|]).
  destruct p; [clear Hp | discriminate Hp].
  unfold Spec.decrypt.
  set (x := Spec.little_endian_u32 _). set (y := Spec.little_endian_u32 _).
  assert (H0 : pair_uint32 (x, y)) by (split; apply little_endian4_range).
  pose proof (fold_decrypt_range S (rev (seq 1 12)) (x, y) H0) as HR.
  pose proof (fold_encrypt_decrypt S (seq 1 12) (x, y) H0) as HI.
  destruct (fold_left (Spec.decrypt_round S) (rev (seq 1 12)) (x, y)) as [A B].
  destruct HR as [HA HB]. cbn [fst snd] in HA, HB.
  unfold Spec.encrypt.
  rewrite little_endian_u32_lo, little_endian_u32_hi by apply wrap32_range.
  change (((A - nth 0 S 0) mod 2 ^ 32 + nth 0 S 0) mod 2 ^ 32)
    with (add32 (sub32 A (nth 0 S 0)) (nth 0 S 0)).
  change (((B - nth 1 S 0) mod 2 ^ 32 + nth 1 S 0) mod 2 ^ 32)
    with (add32 (sub32 B (nth 1 S 0)) (nth 1 S 0)).
  rewrite !add32_sub32 by assumption.
  rewrite HI.
  unfold x, y, Spec.little_endian_u32. cbn [firstn skipn].
  rewrite !u32_bytes_little_endian. reflexivity.
Qed.

(** X8.  The round trip the other way: for every schedule and every 8-byte
    block, in both source files, encrypting the decryption of the block
    returns the block.  With C1 this makes [Encrypt] and [Decrypt] inverse
    permutations of the 8-byte blocks. *)
Theorem decrypt_then_encrypt (a : arch) (c : rc5cipher) (m : mem) (src dst out : slice) :
  len src = 8%nat -> len dst = 8%nat -> len out = 8%nat ->
  trips_back Rc5.Encrypt Rc5.Decrypt c m src dst out /\
  trips_back (Part000.Encrypt a) (Part000.Decrypt a) c m src dst out.
Proof.
  intros Hs Hd Ho.
  assert (R : contents (enc_store c (dec_store c m dst src) out dst) out
              = contents m src).
  { rewrite !contents_8 by assumption.
    rewrite enc_store_bytes, dec_store_bytes.
    apply spec_encrypt_decrypt, length_bytes_at. }
  split; exists (dec_store c m dst src),
                (enc_store c (dec_store c m dst src) out dst).
  - rewrite Rc5_Decrypt_run, Rc5_Encrypt_run by lia. auto.
  - rewrite Part000_Decrypt_run, Part000_Encrypt_run by lia. auto.
Qed.

Lemma decrypt_then_encrypt_witness :
  trips_back Rc5.Encrypt Rc5.Decrypt c0 zero_store src0 dst0 out0 /\
  trips_back (Part000.Encrypt Arch32) (Part000.Decrypt Arch32)
             c0 zero_store src0 dst0 out0.
Proof. apply (decrypt_then_encrypt Arch32 c0 zero_store src0 dst0 out0); reflexivity. Defined.

(** X9.  [Encrypt] loses nothing: under one schedule, two 8-byte blocks
    with the same ciphertext are the same block (both source files). *)
Theorem Encrypt_injective (a : arch) (c : rc5cipher) (m n : mem) (dst src : slice) :
  len src = 8%nat -> len dst = 8%nat ->
  (contents (snd (Rc5.Encrypt c dst src m)) dst
   = contents (snd (Rc5.Encrypt c dst src n)) dst ->
   contents m src = contents n src) /\
  (contents (snd (Part000.Encrypt a c dst src m)) dst
   = contents (snd (Part000.Encrypt a c dst src n)) dst ->
   contents m src = contents n src).
Proof.
  intros Hs Hd.
  assert (I : contents (enc_store c m dst src) dst = contents (enc_store c n dst src) dst ->
              contents m src = contents n src).
  { rewrite !contents_8 by assumption. rewrite !enc_store_bytes. intros E.
    rewrite <- (spec_decrypt_encrypt (rk c) (bytes_at m (off src) 8))
      by apply length_bytes_at.
    rewrite E. apply spec_decrypt_encrypt, length_bytes_at. }
  split.
  - rewrite !Rc5_Encrypt_run by lia. exact I.
  - rewrite !Part000_Encrypt_run by lia. exact I.
Qed.

Lemma Encrypt_injective_witness :
  (contents (snd (Rc5.Encrypt c0 dst0 src0 zero_store)) dst0
   = contents (snd (Rc5.Encrypt c0 dst0 src0 zero_store)) dst0 ->
   contents zero_store src0 = contents zero_store src0) /\
  (contents (snd (Part000.Encrypt Arch64 c0 dst0 src0 zero_store)) dst0
   = contents (snd (Part000.Encrypt Arch64 c0 dst0 src0 zero_store)) dst0 ->
   contents zero_store src0 = contents zero_store src0).
Proof. apply (Encrypt_injective Arch64 c0 zero_store zero_store dst0 src0); reflexivity. Defined.

(** ** Buffers that are too short (src/rc5.go) *)

Lemma Rc5_Encrypt_short_src c dst src m :
  (len src < 8)%nat -> Rc5.Encrypt c dst src m = (None, m).
Proof.
  destruct src as [o l s]. cbn [len]. intros H.
  do 8 (destruct l as [|l];
        [cbv [Rc5.Encrypt Rc5.getUint32 bind index slice_from ret panic
              len off spare Nat.ltb Nat.leb Nat.sub]; reflexivity|]).
  exfalso; lia.
Qed.

Lemma Rc5_Decrypt_short_src c dst src m :
  (len src < 8)%nat -> Rc5.Decrypt c dst src m = (None, m).
Proof.
  destruct src as [o l s]. cbn [len]. intros H.
  do 8 (destruct l as [|l];
        [cbv [Rc5.Decrypt Rc5.getUint32 bind index slice_from ret panic
              len off spare Nat.ltb Nat.leb Nat.sub]; reflexivity|]).
  exfalso; lia.
Qed.

Lemma Rc5_Encrypt_short_dst c dst src m :
  (8 <= len src)%nat -> (len dst < 8)%nat ->
  exists m',
    Rc5.Encrypt c dst src m = (None, m') /\
    same_store m' (clobbered (off dst) (off dst + len dst) (enc_store c m dst src) m).
Proof.
  intros Hs Hd. long_slice src Hs.
  destruct dst as [d dl ds]. cbn [len off] in Hd |- *.
  unfold Rc5.Encrypt, same_store, enc_store, enc_words, word_at. cbv zeta.
  cbn [off len spare].
  destruct (Rc5.encRounds _ _ _ _ _) as [A B] eqn:E. cbn [fst snd].
  do 8 (destruct dl as [|dl];
        [cbv [Rc5.getUint32 Rc5.putUint32 bind index store slice_from ret panic
              len off spare Nat.ltb Nat.leb Nat.sub];
         rewrite E; eexists; split; [reflexivity | intros x; clob_cases]|]).
  exfalso; lia.
Qed.

Lemma Rc5_Decrypt_short_dst c dst src m :
  (8 <= len src)%nat -> (len dst < 8)%nat ->
  exists m',
    Rc5.Decrypt c dst src m = (None, m') /\
    same_store m' (clobbered (off dst + 4) (off dst + len dst) (dec_store c m dst src) m).
Proof.
  intros Hs Hd. long_slice src Hs.
  destruct dst as [d dl ds]. cbn [len off] in Hd |- *.
  unfold Rc5.Decrypt, same_store, dec_store, dec_words, word_at. cbv zeta.
  cbn [off len spare].
  destruct (Rc5.decRounds _ _ _ _ _) as [A B] eqn:E. cbn [fst snd].
  do 8 (destruct dl as [|dl];
        [cbv [Rc5.getUint32 Rc5.putUint32 bind index store slice_from ret panic
              len off spare Nat.ltb Nat.leb Nat.sub];
         rewrite E; eexists; split; [reflexivity | intros x; clob_cases]|]).
  exfalso; lia.
Qed.

Lemma bytes_at_firstn m a n k :
  (k <= n)%nat -> bytes_at m a k = firstn k (bytes_at m a n).
Proof.
  intros H. replace n with (k + (n - k))%nat by lia.
  rewrite bytes_at_app, firstn_app, length_bytes_at, Nat.sub_diag.
  cbn [firstn]. rewrite app_nil_r.
  rewrite <- (length_bytes_at m a k) at 2. rewrite firstn_all. reflexivity.
Qed.

(** X10.  [Encrypt] and [Decrypt] of src/rc5.go return exactly when both
    buffers have at least [BlockSize()] bytes; otherwise they panic. *)
Theorem Rc5_returns_iff_BlockSize (c : rc5cipher) (m : mem) (dst src : slice) :
  (fst (Rc5.Encrypt c dst src m) = Some tt <->
   BlockSize c <= Z.of_nat (len src) /\ BlockSize c <= Z.of_nat (len dst)) /\
  (fst (Rc5.Decrypt c dst src m) = Some tt <->
   BlockSize c <= Z.of_nat (len src) /\ BlockSize c <= Z.of_nat (len dst)).
Proof.
  unfold BlockSize.
  destruct (le_lt_dec 8 (len src)) as [Hs | Hs];
    [destruct (le_lt_dec 8 (len dst)) as [Hd | Hd] | ].
  - rewrite Rc5_Encrypt_run, Rc5_Decrypt_run by assumption. cbn [fst].
    split; (split; [intros _; lia | reflexivity]).
  - destruct (Rc5_Encrypt_short_dst c dst src m Hs Hd) as [m1 [E1 _]].
    destruct (Rc5_Decrypt_short_dst c dst src m Hs Hd) as [m2 [E2 _]].
    rewrite E1, E2. cbn [fst].
    split; (split; [discriminate | lia]).
  - rewrite Rc5_Encrypt_short_src, Rc5_Decrypt_short_src by assumption. cbn [fst].
    split; (split; [discriminate | lia]).
Qed.

(** X11.  With a source shorter than eight bytes, [Encrypt] and [Decrypt]
    of src/rc5.go panic before any write: the store is untouched. *)
Theorem Rc5_short_source (c : rc5cipher) (m : mem) (dst src : slice) :
  (len src < 8)%nat ->
  Rc5.Encrypt c dst src m = (None, m) /\ Rc5.Decrypt c dst src m = (None, m).
Proof.
  intros H. split; [apply Rc5_Encrypt_short_src | apply Rc5_Decrypt_short_src]; exact H.
Qed.

Lemma Rc5_short_source_witness :
  Rc5.Encrypt c0 dst0 (mkSlice 16 7 9) zero_store = (None, zero_store) /\
  Rc5.Decrypt c0 dst0 (mkSlice 16 7 9) zero_store = (None, zero_store).
Proof. apply (Rc5_short_source c0 zero_store dst0 (mkSlice 16 7 9)). simpl. lia. Defined.

(** X12.  With a full source and a destination shorter than eight bytes,
    [Encrypt] of src/rc5.go panics only after filling the destination: it
    then holds the first [len dst] bytes of the ciphertext, and nothing
    outside it has changed. *)
Theorem Rc5_Encrypt_short_destination (c : rc5cipher) (m : mem) (dst src : slice) :
  (8 <= len src)%nat -> (len dst < 8)%nat ->
  exists m',
    Rc5.Encrypt c dst src m = (None, m') /\
    contents m' dst = firstn (len dst) (Spec.encrypt (rk c) (bytes_at m (off src) 8)) /\
    (forall x, (x < off dst \/ off dst + len dst <= x)%nat -> m' x = m x).
Proof.
  intros Hs Hd.
  destruct (Rc5_Encrypt_short_dst c dst src m Hs Hd) as [m' [E S]].
  exists m'. split; [exact E | split].
  - rewrite <- enc_store_bytes with (dst := dst).
    rewrite <- bytes_at_firstn by lia.
    unfold contents. apply bytes_at_ext. intros x Hx.
    rewrite S. unfold clobbered.
    destruct (Nat.leb_spec (off dst) x); [ | lia].
    destruct (Nat.ltb_spec x (off dst + len dst)); [ | lia].
    reflexivity.
  - intros x Hx. rewrite S. unfold clobbered.
    destruct (Nat.leb_spec (off dst) x); [ | reflexivity].
    destruct (Nat.ltb_spec x (off dst + len dst)); [lia | reflexivity].
Qed.

Lemma Rc5_Encrypt_short_destination_witness :
  exists m',
    Rc5.Encrypt c0 (mkSlice 24 5 0) src0 zero_store = (None, m') /\
    contents m' (mkSlice 24 5 0)
    = firstn 5 (Spec.encrypt (rk c0) (bytes_at zero_store (off src0) 8)) /\
    (forall x, (x < 24 \/ 24 + 5 <= x)%nat -> m' x = zero_store x).
Proof.
  apply (Rc5_Encrypt_short_destination c0 zero_store (mkSlice 24 5 0) src0); simpl; lia.
Defined.

(** X13.  With a full source and a destination shorter than eight bytes,
    [Decrypt] of src/rc5.go, which writes the second word first, panics
    leaving the first four bytes of the destination and everything outside
    it untouched; the bytes of the destination from index 4 on hold the
    corresponding bytes of the plaintext. *)
Theorem Rc5_Decrypt_short_destination (c : rc5cipher) (m : mem) (dst src : slice) :
  (8 <= len src)%nat -> (len dst < 8)%nat ->
  exists m',
    Rc5.Decrypt c dst src m = (None, m') /\
    (forall x, (x < off dst + 4 \/ off dst + len dst <= x)%nat -> m' x = m x) /\
    (forall i, (4 <= i < len dst)%nat ->
       m' (off dst + i)%nat
       = nth i (Spec.decrypt (rk c) (bytes_at m (off src) 8)) x00).
Proof.
  intros Hs Hd.
  destruct (Rc5_Decrypt_short_dst c dst src m Hs Hd) as [m' [E S]].
  exists m'. split; [exact E | split].
  - intros x Hx. rewrite S. unfold clobbered.
    destruct (Nat.leb_spec (off dst + 4) x); [ | reflexivity].
    destruct (Nat.ltb_spec x (off dst + len dst)); [lia | reflexivity].
  - intros i Hi. rewrite S. unfold clobbered.
    destruct (Nat.leb_spec (off dst + 4) (off dst + i)); [ | lia].
    destruct (Nat.ltb_spec (off dst + i) (off dst + len dst)); [ | lia].
    cbn [andb]. rewrite <- dec_store_bytes with (dst := dst).
    unfold bytes_at.
    rewrite nth_indep with (d' := dec_store c m dst src (off dst + 0)%nat)
      by (rewrite length_map, length_seq; lia).
    rewrite (map_nth (fun i => dec_store c m dst src (off dst + i)%nat)).
    rewrite seq_nth by lia. reflexivity.
Qed.

Lemma Rc5_Decrypt_short_destination_witness :
  exists m',
    Rc5.Decrypt c0 (mkSlice 24 6 0) src0 zero_store = (None, m') /\
    (forall x, (x < 24 + 4 \/ 24 + 6 <= x)%nat -> m' x = zero_store x) /\
    (forall i, (4 <= i < 6)%nat ->
       m' (24 + i)%nat
       = nth i (Spec.decrypt (rk c0) (bytes_at zero_store (off src0) 8)) x00).
Proof.
  apply (Rc5_Decrypt_short_destination c0 zero_store (mkSlice 24 6 0) src0); simpl; lia.
Defined.

(** ** Lengths and capacities (src/unnamed/part_000) *)

Lemma slice_to_run b hi m :
  (hi <= cap b)%nat -> slice_to b hi m = (Some (mkSlice (off b) hi (cap b - hi)), m).
Proof.
  intros H. unfold slice_to. destruct (Nat.leb_spec hi (cap b)); [reflexivity | lia].
Qed.

Lemma slice_to_panic b hi m : (cap b < hi)%nat -> slice_to b hi m = (None, m).
Proof.
  intros H. unfold slice_to. destruct (Nat.leb_spec hi (cap b)); [lia | reflexivity].
Qed.

Lemma slice_range_run b lo hi m :
  (lo <= hi)%nat -> (hi <= cap b)%nat ->
  slice_range b lo hi m = (Some (mkSlice (off b + lo) (hi - lo) (cap b - hi)), m).
Proof.
  intros H1 H2. unfold slice_range.
  destruct (Nat.leb_spec lo hi); [ | lia].
  destruct (Nat.leb_spec hi (cap b)); [reflexivity | lia].
Qed.

Lemma slice_range_panic b lo hi m :
  (cap b < hi)%nat -> slice_range b lo hi m = (None, m).
Proof.
  intros H. unfold slice_range.
  destruct (Nat.leb_spec hi (cap b)); [lia|].
  rewrite andb_false_r. reflexivity.
Qed.

Lemma Uint32_run o s m :
  binary.LittleEndian.Uint32 (mkSlice o 4 s) m = (Some (word_at m o), m).
Proof. reflexivity. Qed.

Lemma PutUint32_run o s v m :
  binary.LittleEndian.PutUint32 (mkSlice o 4 s) v m = (Some tt, put4 m o v).
Proof. reflexivity. Qed.

Lemma Part000_Encrypt_cap a c dst src m :
  (8 <= cap src)%nat -> (8 <= cap dst)%nat ->
  Part000.Encrypt a c dst src m = (Some tt, enc_store c m dst src).
Proof.
  intros Hs Hd. unfold Part000.Encrypt, enc_store, enc_words, bind. cbv zeta.
  rewrite slice_to_run by lia. rewrite Uint32_run.
  rewrite slice_range_run by lia. change (8 - 4)%nat with 4%nat. rewrite Uint32_run.
  rewrite Part000_encRounds.
  destruct (Rc5.encRounds _ _ _ _ _) as [A B]. cbn [fst snd].
  rewrite slice_to_run by lia. rewrite PutUint32_run.
  rewrite slice_range_run by lia. change (8 - 4)%nat with 4%nat.
  rewrite PutUint32_run. reflexivity.
Qed.

Lemma Part000_Decrypt_cap a c dst src m :
  (8 <= cap src)%nat -> (8 <= cap dst)%nat ->
  Part000.Decrypt a c dst src m = (Some tt, dec_store c m dst src).
Proof.
  intros Hs Hd. unfold Part000.Decrypt, dec_store, dec_words, bind. cbv zeta.
  rewrite slice_to_run by lia. rewrite Uint32_run.
  rewrite slice_range_run by lia. change (8 - 4)%nat with 4%nat. rewrite Uint32_run.
  rewrite Part000_decRounds.
  destruct (Rc5.decRounds _ _ _ _ _) as [A B]. cbn [fst snd].
  rewrite slice_range_run by lia. change (8 - 4)%nat with 4%nat.
  rewrite PutUint32_run.
  rewrite slice_to_run by lia. rewrite PutUint32_run. reflexivity.
Qed.

Lemma Part000_short_src a c dst src m :
  (cap src < 8)%nat ->
  Part000.Encrypt a c dst src m = (None, m) /\
  Part000.Decrypt a c dst src m = (None, m).
Proof.
  intros Hs. unfold Part000.Encrypt, Part000.Decrypt, bind.
  destruct (le_lt_dec 4 (cap src)) as [H4 | H4].
  - rewrite !slice_to_run by lia. rewrite !Uint32_run.
    rewrite !slice_range_panic by lia. split; reflexivity.
  - rewrite !slice_to_panic by lia. split; reflexivity.
Qed.

Lemma Part000_Encrypt_short_dst a c dst src m :
  (8 <= cap src)%nat -> (cap dst < 8)%nat ->
  Part000.Encrypt a c dst src m =
  (None, if (4 <=? cap dst)%nat
         then put4 m (off dst)
                (fst (enc_words (rk c) (word_at m (off src)) (word_at m (off src + 4))))
         else m).
Proof.
  intros Hs Hd. unfold Part000.Encrypt, enc_words, bind.
  rewrite slice_to_run by lia. rewrite Uint32_run.
  rewrite slice_range_run by lia. change (8 - 4)%nat with 4%nat. rewrite Uint32_run.
  rewrite Part000_encRounds.
  destruct (Rc5.encRounds _ _ _ _ _) as [A B]. cbn [fst snd].
  destruct (Nat.leb_spec 4 (cap dst)) as [H4 | H4].
  - rewrite slice_to_run by lia. rewrite PutUint32_run.
    rewrite slice_range_panic by lia. reflexivity.
  - rewrite slice_to_panic by lia. reflexivity.
Qed.

Lemma Part000_Decrypt_short_dst a c dst src m :
  (8 <= cap src)%nat -> (cap dst < 8)%nat ->
  Part000.Decrypt a c dst src m = (None, m).
Proof.
  intros Hs Hd. unfold Part000.Decrypt, bind.
  rewrite slice_to_run by lia. rewrite Uint32_run.
  rewrite slice_range_run by lia. change (8 - 4)%nat with 4%nat. rewrite Uint32_run.
  destruct (Part000.decRounds _ _ _ _ _ _) as [A B].
  rewrite slice_range_panic by lia. reflexivity.
Qed.

(** X14.  [Encrypt] and [Decrypt] of src/unnamed/part_000 slice their
    buffers with [[:4]] and [[4:8]], which Go checks against the capacity:
    they return exactly when both capacities reach eight, whatever the
    lengths, and then read and write the eight bytes at the start of each
    buffer as on full buffers. *)
Theorem Part000_returns_iff_capacity (a : arch) (c : rc5cipher) (m : mem) (dst src : slice) :
  (fst (Part000.Encrypt a c dst src m) = Some tt <->
   (8 <= cap src)%nat /\ (8 <= cap dst)%nat) /\
  (fst (Part000.Decrypt a c dst src m) = Some tt <->
   (8 <= cap src)%nat /\ (8 <= cap dst)%nat) /\
  ((8 <= cap src)%nat -> (8 <= cap dst)%nat ->
   Part000.Encrypt a c dst src m = (Some tt, enc_store c m dst src) /\
   Part000.Decrypt a c dst src m = (Some tt, dec_store c m dst src) /\
   bytes_at (enc_store c m dst src) (off dst) 8
   = Spec.encrypt (rk c) (bytes_at m (off src) 8) /\
   bytes_at (dec_store c m dst src) (off dst) 8
   = Spec.decrypt (rk c) (bytes_at m (off src) 8)).
Proof.
  split; [ | split].
  - destruct (le_lt_dec 8 (cap src)) as [Hs | Hs];
      [destruct (le_lt_dec 8 (cap dst)) as [Hd | Hd] | ].
    + rewrite Part000_Encrypt_cap by assumption. cbn [fst].
      split; [intros _; split; assumption | reflexivity].
    + rewrite Part000_Encrypt_short_dst by assumption. cbn [fst].
      split; [discriminate | intros [_ H]; lia].
    + destruct (Part000_short_src a c dst src m Hs) as [E _]. rewrite E. cbn [fst].
      split; [discriminate | intros [H _]; lia].
  - destruct (le_lt_dec 8 (cap src)) as [Hs | Hs];
      [destruct (le_lt_dec 8 (cap dst)) as [Hd | Hd] | ].
    + rewrite Part000_Decrypt_cap by assumption. cbn [fst].
      split; [intros _; split; assumption | reflexivity].
    + rewrite Part000_Decrypt_short_dst by assumption. cbn [fst].
      split; [discriminate | intros [_ H]; lia].
    + destruct (Part000_short_src a c dst src m Hs) as [_ E]. rewrite E. cbn [fst].
      split; [discriminate | intros [H _]; lia].
  - intros Hs Hd. split; [ | split; [ | split]].
    + apply Part000_Encrypt_cap; assumption.
    + apply Part000_Decrypt_cap; assumption.
    + apply enc_store_bytes.
    + apply dec_store_bytes.
Qed.

Lemma Part000_returns_iff_capacity_witness :
  Part000.Encrypt Arch64 c0 (mkSlice 24 0 8) (mkSlice 16 2 6) zero_store
  = (Some tt, enc_store c0 zero_store (mkSlice 24 0 8) (mkSlice 16 2 6)) /\
  Part000.Decrypt Arch64 c0 (mkSlice 24 0 8) (mkSlice 16 2 6) zero_store
  = (Some tt, dec_store c0 zero_store (mkSlice 24 0 8) (mkSlice 16 2 6)) /\
  bytes_at (enc_store c0 zero_store (mkSlice 24 0 8) (mkSlice 16 2 6)) 24 8
  = Spec.encrypt (rk c0) (bytes_at zero_store 16 8) /\
  bytes_at (dec_store c0 zero_store (mkSlice 24 0 8) (mkSlice 16 2 6)) 24 8
  = Spec.decrypt (rk c0) (bytes_at zero_store 16 8).
Proof.
  apply (proj2 (proj2 (Part000_returns_iff_capacity Arch64 c0 zero_store
                         (mkSlice 24 0 8) (mkSlice 16 2 6))));
    unfold cap; simpl; lia.
Defined.

(** X15.  When src/unnamed/part_000 panics it has written whole words
    only: [Decrypt] has written nothing, and so has [Encrypt] unless the
    source is full and the capacity of the destination is between four and
    seven, in which case exactly the first ciphertext word is in place. *)
Theorem Part000_panic_store (a : arch) (c : rc5cipher) (m : mem) (dst src : slice) :
  (fst (Part000.Decrypt a c dst src m) = None -> snd (Part000.Decrypt a c dst src m) = m) /\
  (fst (Part000.Encrypt a c dst src m) = None ->
   ((8 <= cap src)%nat /\ (4 <= cap dst < 8)%nat /\
    bytes_at (snd (Part000.Encrypt a c dst src m)) (off dst) 4
    = firstn 4 (Spec.encrypt (rk c) (bytes_at m (off src) 8)) /\
    (forall x, (x < off dst \/ off dst + 4 <= x)%nat ->
       snd (Part000.Encrypt a c dst src m) x = m x))
   \/ snd (Part000.Encrypt a c dst src m) = m).
Proof.
  destruct (le_lt_dec 8 (cap src)) as [Hs | Hs];
    [destruct (le_lt_dec 8 (cap dst)) as [Hd | Hd] | ].
  - rewrite Part000_Encrypt_cap, Part000_Decrypt_cap by assumption. cbn [fst].
    split; discriminate.
  - rewrite Part000_Encrypt_short_dst, Part000_Decrypt_short_dst by assumption.
    cbn [fst snd]. split; [reflexivity | intros _].
    destruct (Nat.leb_spec 4 (cap dst)) as [H4 | H4]; [left | right; reflexivity].
    split; [exact Hs | split; [lia | split]].
    + rewrite bytes_put4.
      rewrite <- enc_store_bytes with (dst := dst).
      unfold enc_store. cbv zeta. rewrite bytes_put_AB.
      set (AB := enc_words _ _ _). reflexivity.
    + intros x Hx. apply put4_outside, Hx.
  - destruct (Part000_short_src a c dst src m Hs) as [E D]. rewrite E, D.
    cbn [fst snd]. split; [reflexivity | right; reflexivity].
Qed.

(** X16.  Where the two files differ: with a full source and a destination
    whose length is below eight but whose capacity reaches eight,
    src/rc5.go panics and src/unnamed/part_000 returns, having written
    beyond the destination's length. *)
Theorem short_length_long_capacity (a : arch) (c : rc5cipher) (m : mem) (dst src : slice) :
  (8 <= len src)%nat -> (len dst < 8)%nat -> (8 <= cap dst)%nat ->
  fst (Rc5.Encrypt c dst src m) = None /\
  fst (Rc5.Decrypt c dst src m) = None /\
  Part000.Encrypt a c dst src m = (Some tt, enc_store c m dst src) /\
  Part000.Decrypt a c dst src m = (Some tt, dec_store c m dst src).
Proof.
  intros Hs Hd Hc.
  destruct (Rc5_Encrypt_short_dst c dst src m Hs Hd) as [m1 [E1 _]].
  destruct (Rc5_Decrypt_short_dst c dst src m Hs Hd) as [m2 [E2 _]].
  rewrite E1, E2. cbn [fst].
  assert (Hc' : (8 <= cap src)%nat) by (unfold cap; lia).
  split; [reflexivity | split; [reflexivity | split]].
  - apply Part000_Encrypt_cap; assumption.
  - apply Part000_Decrypt_cap; assumption.
Qed.

Lemma short_length_long_capacity_witness :
  fst (Rc5.Encrypt c0 short_dst src0 zero_store) = None /\
  fst (Rc5.Decrypt c0 short_dst src0 zero_store) = None /\
  Part000.Encrypt Arch32 c0 short_dst src0 zero_store
  = (Some tt, enc_store c0 zero_store short_dst src0) /\
  Part000.Decrypt Arch32 c0 short_dst src0 zero_store
  = (Some tt, dec_store c0 zero_store short_dst src0).
Proof.
  apply (short_length_long_capacity Arch32 c0 zero_store short_dst src0);
    unfold cap; simpl; lia.
Defined.

Lemma Rc5_returns_iff_BlockSize_witness :
  fst (Rc5.Encrypt c0 dst0 src0 zero_store) = Some tt /\
  (fst (Rc5.Decrypt c0 short_dst src0 zero_store) = Some tt -> False).
Proof.
  split.
  - apply (proj1 (Rc5_returns_iff_BlockSize c0 zero_store dst0 src0)).
    unfold BlockSize. simpl. lia.
  - intros H.
    apply (proj1 (proj2 (Rc5_returns_iff_BlockSize c0 zero_store short_dst src0))) in H.
    unfold BlockSize in H. simpl in H. lia.
Defined.

Lemma getUint32_bounds_witness :
  is_uint32 0 /\ 0 = Spec.little_endian (bytes_at zero_store (off src0) 4).
Proof.
  apply (proj2 (proj2 (getUint32_bounds src0 zero_store)) 0). reflexivity.
Defined.

Lemma Part000_panic_store_witness :
  snd (Part000.Decrypt Arch64 c0 (mkSlice 24 6 0) src0 zero_store) = zero_store.
Proof.
  apply (proj1 (Part000_panic_store Arch64 c0 zero_store (mkSlice 24 6 0) src0)).
  vm_compute. reflexivity.
Defined.

(** ** The schedule [New] returns *)

Lemma Forall_update P l : forall i v,
  Forall P l -> P v -> Forall P (update l i v).
Proof.
  induction l as [|h t IH]; intros [|i] v HF Hv; cbn [update];
    inversion HF; subst; constructor; auto.
Qed.

Lemma rotl32_range k r :
  is_uint32 k -> 0 <= r <= 32 -> is_uint32 (Rc5.rotl32 k r).
Proof.
  intros Hk Hr. rewrite rotl32_circular by assumption.
  apply rotate_left_32_range, Hk.
Qed.

Lemma mix_range n : forall rks L A B i j,
  Forall is_uint32 rks -> Forall is_uint32 (Rc5.mix n rks L A B i j).
Proof.
  induction n as [|n IH]; intros rks L A B i j H; cbn [Rc5.mix].
  - exact H.
  - apply IH, Forall_update; [exact H|].
    apply rotl32_range; [apply add32_range | lia].
Qed.

Lemma skeytable_range : Forall is_uint32 skeytable.
Proof.
  unfold skeytable, is_uint32. rewrite pow2_32.
  repeat (constructor; [lia|]). constructor.
Qed.

Lemma schedule_of_range L : Forall is_uint32 (schedule_of L).
Proof. unfold schedule_of. apply mix_range. exact skeytable_range. Qed.

(** X17.  Whatever cipher [New] returns, in either source file, came from
    a 16-byte key, left the store as it was, and carries a schedule of
    exactly 26 words, each a [uint32]. *)
Theorem New_schedule_invariant (a : arch) (key : slice) (m m' : mem) (c : rc5cipher) :
  Rc5.New key m = (Some (inr c), m') \/ Part000.New a key m = (Some (inr c), m') ->
  len key = 16%nat /\ m' = m /\
  length (rk c) = roundKeys /\ Forall is_uint32 (rk c).
Proof.
  intros H.
  destruct (Nat.eq_dec (len key) 16) as [E | NE].
  - rewrite Rc5_New_run, (Part000_New_run a) in H by exact E.
    assert (Hc : c = mkCipher (schedule_of (key_at m (off key))) /\ m' = m)
      by (destruct H as [H | H]; injection H as <- <-; auto).
    destruct Hc as [-> ->]. cbn [rk].
    split; [exact E | split; [reflexivity | split]].
    + apply length_schedule_of.
    + apply schedule_of_range.
  - rewrite Rc5_New_short, (Part000_New_short a) in H by exact NE.
    destruct H as [H | H]; discriminate H.
Qed.

Lemma New_schedule_invariant_witness :
  len key0 = 16%nat /\ zero_store = zero_store /\
  length (rk (mkCipher (schedule_of (key_at zero_store 0)))) = roundKeys /\
  Forall is_uint32 (rk (mkCipher (schedule_of (key_at zero_store 0)))).
Proof.
  apply (New_schedule_invariant Arch64 key0 zero_store zero_store
           (mkCipher (schedule_of (key_at zero_store 0)))).
  left. apply (Rc5_New_run key0 zero_store). reflexivity.
Defined.

(** X18.  The cipher depends on the sixteen key bytes and on nothing else:
    two 16-byte keys with the same contents, wherever they lie and whatever
    else the stores hold, give the same result, and the same in both
    files. *)
Theorem New_depends_on_key_bytes (a : arch) (k1 k2 : slice) (m1 m2 : mem) :
  len k1 = 16%nat -> len k2 = 16%nat -> contents m1 k1 = contents m2 k2 ->
  fst (Rc5.New k1 m1) = fst (Rc5.New k2 m2) /\
  fst (Part000.New a k1 m1) = fst (Rc5.New k2 m2).
Proof.
  intros H1 H2 E.
  rewrite (Rc5_New_run k1), (Rc5_New_run k2), (Part000_New_run a k1) by assumption.
  cbn [fst]. rewrite !schedule_of_expand.
  unfold contents in E. rewrite H1, H2 in E. rewrite E. auto.
Qed.

Lemma New_depends_on_key_bytes_witness :
  fst (Rc5.New key0 zero_store) = fst (Rc5.New (mkSlice 100 16 0) zero_store) /\
  fst (Part000.New Arch64 key0 zero_store) = fst (Rc5.New (mkSlice 100 16 0) zero_store).
Proof.
  apply (New_depends_on_key_bytes Arch64 key0 (mkSlice 100 16 0) zero_store zero_store);
    reflexivity.
Defined.

(** ** The error message *)

Lemma to_int_not_nil z :
  Z.to_int z <> Decimal.Pos Decimal.Nil /\ Z.to_int z <> Decimal.Neg Decimal.Nil.
Proof.
  split; intros E.
  - assert (Hz : Z.of_int (Z.to_int z) = 0) by (rewrite E; reflexivity).
    rewrite DecimalZ.of_to in Hz. subst z. discriminate E.
  - assert (Hz : Z.of_int (Z.to_int z) = 0) by (rewrite E; reflexivity).
    rewrite DecimalZ.of_to in Hz. subst z. discriminate E.
Qed.

Lemma Itoa_injective x y : strconv.Itoa x = strconv.Itoa y -> x = y.
Proof.
  unfold strconv.Itoa. intros E.
  apply DecimalZ.to_int_inj.
  assert (S : Some (Z.to_int x) = Some (Z.to_int y)).
  { rewrite <- (DecimalString.NilZero.isi (Z.to_int x)) by apply to_int_not_nil.
    rewrite <- (DecimalString.NilZero.isi (Z.to_int y)) by apply to_int_not_nil.
    rewrite E. reflexivity. }
  injection S as S. exact S.
Qed.

Lemma append_injective p : forall s t,
  String.append p s = String.append p t -> s = t.
Proof.
  induction p as [|ch p IH]; intros s t E; cbn [String.append] in E.
  - exact E.
  - injection E as E. apply IH, E.
Qed.

(** X19.  The message of a [KeySizeError] is the fixed text followed by
    the decimal digits of the size, which parse back to it; so two errors
    with the same message carry the same size. *)
Theorem Error_tells_size (x y : Z) :
  (Error (KeySizeError x) = Error (KeySizeError y) -> x = y) /\
  exists digits,
    Error (KeySizeError x) = String.append Error_prefix digits /\
    option_map Z.of_int (DecimalString.NilZero.int_of_string digits) = Some x.
Proof.
  split.
  - unfold Error. intros E. apply append_injective in E.
    apply Itoa_injective, E.
  - exists (strconv.Itoa x). split; [reflexivity|].
    unfold strconv.Itoa.
    rewrite DecimalString.NilZero.isi by apply to_int_not_nil.
    cbn [option_map]. rewrite DecimalZ.of_to. reflexivity.
Qed.

Lemma Error_tells_size_witness : 15 = 15.
Proof.
  apply (proj1 (Error_tells_size 15 15)). reflexivity.
Defined.
